(** * Tic-Tac-Toe (human against computer): the game engine of game.js

    A shallow embedding of the [TicTacToe] class of [game.js] and of the
    [Stack] and [Queue] classes of [data-structures.js].

    The fields of the JavaScript object become a record, every method a
    function from state to state.  The board is a JavaScript array: a read
    outside the array gives [undefined], a write at an index extends it.
    Two pieces of the environment are part of the state because the logic
    depends on them: the text of the [#status] element, which carries the
    announced result, and the number of [setTimeout] callbacks that were
    scheduled and have not run yet.  The other DOM writes (cell contents,
    move counter, button flags) are never read back by the logic; the flags
    [updateNavigationButtons] computes are given as a function. *)

From Stdlib Require Import List Bool Arith ZArith Lia String DecimalString.
Import ListNotations.

Local Open Scope string_scope.
Local Open Scope list_scope.
Local Open Scope nat_scope.

(* ------------------------------------------------------------------ *)
(** ** Marks, cells and the board array *)

(** The two marks, ['X'] (human) and ['O'] (computer). *)
Inductive player : Type := PlayerX | PlayerO.

(** A value found in the board array: [null], a mark, or [undefined]
    (a read outside the array or of a hole). *)
Inductive cell : Type :=
| Null
| Mark (p : player)
| Undefined.

Definition player_eqb (p q : player) : bool :=
  match p, q with
  | PlayerX, PlayerX | PlayerO, PlayerO => true
  | _, _ => false
  end.

(** [c === d] on cells. *)
Definition cell_eqb (c d : cell) : bool :=
  match c, d with
  | Null, Null => true
  | Mark p, Mark q => player_eqb p q
  | Undefined, Undefined => true
  | _, _ => false
  end.

Definition playerStr (p : player) : string :=
  match p with PlayerX => "X" | PlayerO => "O" end.

(** [p === 'X' ? 'O' : 'X'] *)
Definition other (p : player) : player :=
  match p with PlayerX => PlayerO | PlayerO => PlayerX end.

Definition board_t : Type := list cell.

(** [Array(9).fill(null)] *)
Definition emptyBoard : board_t := repeat Null 9.

(** [board[index]] for a non-negative integer index. *)
Definition get (b : board_t) (index : nat) : cell := nth index b Undefined.

(** [board[index]] for the result of [parseInt]: a negative index (like
    [NaN]) names no element, the read gives [undefined]. *)
Definition getZ (b : board_t) (index : Z) : cell :=
  if (index <? 0)%Z then Undefined else get b (Z.to_nat index).

(** [board[index] = v] for a non-negative integer index: inside the array
    the element is replaced, past its end the array grows and the cells in
    between are holes. *)
Fixpoint set (index : nat) (v : cell) (b : board_t) : board_t :=
  match index, b with
  | 0, [] => [v]
  | 0, _ :: t => v :: t
  | S i, [] => Undefined :: set i v []
  | S i, c :: t => c :: set i v t
  end.

(** [board[index] = v] where [index] may be [undefined] ([None]): that
    write names a property that is no element, the array keeps its
    elements. *)
Definition write (index : option nat) (v : cell) (b : board_t) : board_t :=
  match index with
  | Some i => set i v b
  | None => b
  end.

(** [board.map((cell, idx) => cell === null ? idx : null).filter(idx => idx !== null)],
    the indices of the [null] cells in ascending order, counting from [idx]. *)
Fixpoint emptyFrom (idx : nat) (b : board_t) : list nat :=
  match b with
  | [] => []
  | c :: t => (if cell_eqb c Null then [idx] else []) ++ emptyFrom (S idx) t
  end.

Definition emptyIndices (b : board_t) : list nat := emptyFrom 0 b.

(** [board.every(cell => cell !== null)] *)
Definition boardFull (b : board_t) : bool :=
  forallb (fun c => negb (cell_eqb c Null)) b.

(* ------------------------------------------------------------------ *)
(** ** checkWinner *)

Definition winPatterns : list (list nat) :=
  [ [0; 1; 2]; [3; 4; 5]; [6; 7; 8];
    [0; 3; 6]; [1; 4; 7]; [2; 5; 8];
    [0; 4; 8]; [2; 4; 6] ].

Definition checkWinner (p : player) (b : board_t) : bool :=
  existsb (fun pattern =>
             forallb (fun index => cell_eqb (get b index) (Mark p)) pattern)
          winPatterns.

(* ------------------------------------------------------------------ *)
(** ** data-structures.js: Stack and Queue *)

(** [items.pop()] of a JavaScript array: the array without its last
    element, and that element. *)
Fixpoint unsnoc {A : Type} (l : list A) : option (list A * A) :=
  match l with
  | [] => None
  | x :: t =>
      match unsnoc t with
      | None => Some ([], x)
      | Some (t', y) => Some (x :: t', y)
      end
  end.

Module Stack.
Section Ops.
Context {A : Type}.

(** [items], bottom of the stack first. *)
Record t : Type := mk { items : list A }.

Definition empty : t := mk [].
Definition push (e : A) (s : t) : t := mk (items s ++ [e]).
Definition isEmpty (s : t) : bool :=
  match items s with [] => true | _ => false end.
(** [null] ([None]) on an empty stack. *)
Definition pop (s : t) : option A * t :=
  if isEmpty s then (None, s)
  else match unsnoc (items s) with
       | Some (rest, e) => (Some e, mk rest)
       | None => (None, s)
       end.
Definition peek (s : t) : option A :=
  if isEmpty s then None
  else nth_error (items s) (List.length (items s) - 1).
Definition size (s : t) : nat := List.length (items s).
Definition clear (s : t) : t := mk [].
End Ops.
Arguments t : clear implicits.
End Stack.

Module Queue.
Section Ops.
Context {A : Type}.

(** [items], front of the queue first. *)
Record t : Type := mk { items : list A }.

Definition empty : t := mk [].
Definition enqueue (e : A) (q : t) : t := mk (items q ++ [e]).
Definition isEmpty (q : t) : bool :=
  match items q with [] => true | _ => false end.
(** [items.shift()], [null] ([None]) on an empty queue. *)
Definition dequeue (q : t) : option A * t :=
  if isEmpty q then (None, q)
  else match items q with
       | e :: rest => (Some e, mk rest)
       | [] => (None, q)
       end.
Definition front (q : t) : option A :=
  if isEmpty q then None else nth_error (items q) 0.
Definition size (q : t) : nat := List.length (items q).
Definition clear (q : t) : t := mk [].
End Ops.
Arguments t : clear implicits.
End Queue.

(* ------------------------------------------------------------------ *)
(** ** The game object *)

(** [moveData]: what [makeMove] stores for every move. *)
Record moveData : Type := MoveData {
  m_index : option nat;
  m_player : player;
  m_board : board_t;
  m_aiRandomMovesUsed : nat
}.

Record TicTacToe : Type := Game {
  board : board_t;
  currentPlayer : player;
  gameActive : bool;
  difficulty : string;
  moveHistory : Stack.t moveData;
  redoHistory : Queue.t moveData;
  reviewMode : bool;
  allMoves : list moveData;
  reviewIndex : Z;
  aiRandomMovesUsed : nat;
  (** text of the [#status] element *)
  statusText : string;
  (** [setTimeout] callbacks [() => this.computerMove()] not run yet *)
  pendingMoves : nat
}.

Definition with_board (v : board_t) (s : TicTacToe) : TicTacToe :=
  Game v (currentPlayer s) (gameActive s) (difficulty s) (moveHistory s)
       (redoHistory s) (reviewMode s) (allMoves s) (reviewIndex s)
       (aiRandomMovesUsed s) (statusText s) (pendingMoves s).
Definition with_currentPlayer (v : player) (s : TicTacToe) : TicTacToe :=
  Game (board s) v (gameActive s) (difficulty s) (moveHistory s)
       (redoHistory s) (reviewMode s) (allMoves s) (reviewIndex s)
       (aiRandomMovesUsed s) (statusText s) (pendingMoves s).
Definition with_gameActive (v : bool) (s : TicTacToe) : TicTacToe :=
  Game (board s) (currentPlayer s) v (difficulty s) (moveHistory s)
       (redoHistory s) (reviewMode s) (allMoves s) (reviewIndex s)
       (aiRandomMovesUsed s) (statusText s) (pendingMoves s).
Definition with_difficulty (v : string) (s : TicTacToe) : TicTacToe :=
  Game (board s) (currentPlayer s) (gameActive s) v (moveHistory s)
       (redoHistory s) (reviewMode s) (allMoves s) (reviewIndex s)
       (aiRandomMovesUsed s) (statusText s) (pendingMoves s).
Definition with_moveHistory (v : Stack.t moveData) (s : TicTacToe) : TicTacToe :=
  Game (board s) (currentPlayer s) (gameActive s) (difficulty s) v
       (redoHistory s) (reviewMode s) (allMoves s) (reviewIndex s)
       (aiRandomMovesUsed s) (statusText s) (pendingMoves s).
Definition with_redoHistory (v : Queue.t moveData) (s : TicTacToe) : TicTacToe :=
  Game (board s) (currentPlayer s) (gameActive s) (difficulty s) (moveHistory s)
       v (reviewMode s) (allMoves s) (reviewIndex s)
       (aiRandomMovesUsed s) (statusText s) (pendingMoves s).
Definition with_reviewMode (v : bool) (s : TicTacToe) : TicTacToe :=
  Game (board s) (currentPlayer s) (gameActive s) (difficulty s) (moveHistory s)
       (redoHistory s) v (allMoves s) (reviewIndex s)
       (aiRandomMovesUsed s) (statusText s) (pendingMoves s).
Definition with_allMoves (v : list moveData) (s : TicTacToe) : TicTacToe :=
  Game (board s) (currentPlayer s) (gameActive s) (difficulty s) (moveHistory s)
       (redoHistory s) (reviewMode s) v (reviewIndex s)
       (aiRandomMovesUsed s) (statusText s) (pendingMoves s).
Definition with_reviewIndex (v : Z) (s : TicTacToe) : TicTacToe :=
  Game (board s) (currentPlayer s) (gameActive s) (difficulty s) (moveHistory s)
       (redoHistory s) (reviewMode s) (allMoves s) v
       (aiRandomMovesUsed s) (statusText s) (pendingMoves s).
Definition with_aiRandomMovesUsed (v : nat) (s : TicTacToe) : TicTacToe :=
  Game (board s) (currentPlayer s) (gameActive s) (difficulty s) (moveHistory s)
       (redoHistory s) (reviewMode s) (allMoves s) (reviewIndex s)
       v (statusText s) (pendingMoves s).
Definition with_statusText (v : string) (s : TicTacToe) : TicTacToe :=
  Game (board s) (currentPlayer s) (gameActive s) (difficulty s) (moveHistory s)
       (redoHistory s) (reviewMode s) (allMoves s) (reviewIndex s)
       (aiRandomMovesUsed s) v (pendingMoves s).
Definition with_pendingMoves (v : nat) (s : TicTacToe) : TicTacToe :=
  Game (board s) (currentPlayer s) (gameActive s) (difficulty s) (moveHistory s)
       (redoHistory s) (reviewMode s) (allMoves s) (reviewIndex s)
       (aiRandomMovesUsed s) (statusText s) v.

(** The status line while the game is active. *)
Definition turnText (p : player) : string :=
  (playerStr p ++ "'s turn " ++
   match p with PlayerO => "(Computer)" | PlayerX => "(You)" end)%string.

(** [updateStatus(message = null)]: a truthy message is shown; without
    one the turn is shown while the game is active, and the text stays
    otherwise. *)
Definition updateStatus (message : option string) (s : TicTacToe) : TicTacToe :=
  let truthy := match message with
                | Some m => negb (String.eqb m EmptyString)
                | None => false
                end in
  if truthy then
    match message with
    | Some m => with_statusText m s
    | None => s
    end
  else if gameActive s then with_statusText (turnText (currentPlayer s)) s
  else s.

(** The constructor: the fields, then [initializeGame], whose
    [updateStatus()] writes the first status line. *)
Definition newGame : TicTacToe :=
  updateStatus None
    (Game emptyBoard PlayerX true "medium" Stack.empty Queue.empty
          false [] (-1)%Z 0 EmptyString 0).

(** [makeMove(index, player)] *)
Definition makeMove (index : option nat) (p : player) (s : TicTacToe) : TicTacToe :=
  let s := with_board (write index (Mark p) (board s)) s in
  let move := MoveData index p (board s) (aiRandomMovesUsed s) in
  let s := with_allMoves (allMoves s ++ [move]) s in
  let s := with_moveHistory (Stack.push move (moveHistory s)) s in
  let s := with_redoHistory (Queue.clear (redoHistory s)) s in
  if checkWinner p (board s) then
    updateStatus (Some (playerStr p ++ " wins!")%string) (with_gameActive false s)
  else if boardFull (board s) then
    updateStatus (Some "It's a draw!") (with_gameActive false s)
  else
    updateStatus None
      (with_currentPlayer
         (match currentPlayer s with PlayerX => PlayerO | PlayerO => PlayerX end) s).

(* ------------------------------------------------------------------ *)
(** ** findWinningMove *)

(** The loop of [findWinningMove]: every candidate is written into the
    board, tested and erased again; the result is the index, or [-1].
    The board the loop leaves behind is returned with it. *)
Fixpoint findWinningLoop (p : player) (candidates : list nat) (b : board_t)
  : Z * board_t :=
  match candidates with
  | [] => ((-1)%Z, b)
  | index :: rest =>
      let b := set index (Mark p) b in
      let wins := checkWinner p b in
      let b := set index Null b in
      if wins then (Z.of_nat index, b) else findWinningLoop p rest b
  end.

Definition findWinningMove (p : player) (b : board_t) : Z * board_t :=
  findWinningLoop p (emptyIndices b) b.

(* ------------------------------------------------------------------ *)
(** ** minimax *)

(** A score, or the [-Infinity] / [Infinity] the selection loops start from. *)
Inductive bound : Type :=
| NegInfinity
| Finite (z : Z)
| PosInfinity.

(** [a < b] on numbers that may be infinite. *)
Definition bound_ltb (a b : bound) : bool :=
  match a, b with
  | NegInfinity, NegInfinity => false
  | NegInfinity, _ => true
  | Finite _, NegInfinity => false
  | Finite x, Finite y => (x <? y)%Z
  | Finite _, PosInfinity => true
  | PosInfinity, _ => false
  end.

(** The objects [minimax] builds and returns: [{ index, score }], with
    no [index] on a terminal board. *)
Record scoredMove : Type := ScoredMove {
  mv_index : option nat;
  mv_score : Z
}.

(** The selection loop for ['O']: [moves[i].score > bestScore]. *)
Fixpoint selectMax (moves : list scoredMove) (i : nat)
         (bestScore : bound) (bestMove : option nat) : option nat :=
  match moves with
  | [] => bestMove
  | m :: rest =>
      if bound_ltb bestScore (Finite (mv_score m))
      then selectMax rest (S i) (Finite (mv_score m)) (Some i)
      else selectMax rest (S i) bestScore bestMove
  end.

(** The selection loop for ['X']: [moves[i].score < bestScore]. *)
Fixpoint selectMin (moves : list scoredMove) (i : nat)
         (bestScore : bound) (bestMove : option nat) : option nat :=
  match moves with
  | [] => bestMove
  | m :: rest =>
      if bound_ltb (Finite (mv_score m)) bestScore
      then selectMin rest (S i) (Finite (mv_score m)) (Some i)
      else selectMin rest (S i) bestScore bestMove
  end.

(** [moves[bestMove]] after the selection loop of [player]. *)
Definition selectBest (p : player) (moves : list scoredMove) : option scoredMove :=
  let bestMove :=
    match p with
    | PlayerO => selectMax moves 0 NegInfinity None
    | PlayerX => selectMin moves 0 PosInfinity None
    end in
  match bestMove with
  | Some k => nth_error moves k
  | None => None
  end.

(** The loop of [minimax] that evaluates all possible moves: the move is
    written into the board, scored by the recursive call [search] for the
    other player, and erased again. *)
Fixpoint evaluateMoves (search : board_t -> option (scoredMove * board_t))
         (p : player) (candidates : list nat) (b : board_t)
  : option (list scoredMove * board_t) :=
  match candidates with
  | [] => Some ([], b)
  | index :: rest =>
      let b := set index (Mark p) b in
      match search b with
      | None => None
      | Some (result, b) =>
          let b := set index Null b in
          match evaluateMoves search p rest b with
          | None => None
          | Some (moves, b) =>
              Some (ScoredMove (Some index) (mv_score result) :: moves, b)
          end
      end
  end.

(** [minimax(board, player)].  The recursion of the source ends because
    every call fills one more cell; here it is bounded by [fuel], and
    [None] means that the bound was reached (or that [moves[bestMove]] was
    [undefined]).  The board array is shared with the caller and mutated in
    place, so the board is threaded through and returned. *)
Fixpoint minimaxFuel (fuel : nat) (b : board_t) (p : player)
  : option (scoredMove * board_t) :=
  match fuel with
  | 0 => None
  | S fuel' =>
      let empties := emptyIndices b in
      if checkWinner PlayerX b then Some (ScoredMove None (-10)%Z, b)
      else if checkWinner PlayerO b then Some (ScoredMove None 10%Z, b)
      else if List.length empties =? 0 then Some (ScoredMove None 0%Z, b)
      else
        let search (b : board_t) :=
          minimaxFuel fuel' b
            (match p with PlayerO => PlayerX | PlayerX => PlayerO end) in
        match evaluateMoves search p empties b with
        | None => None
        | Some (moves, b) =>
            match selectBest p moves with
            | Some best => Some (best, b)
            | None => None
            end
        end
  end.

(** [minimax(board, player)] with the fuel the recursion needs: one unit
    for the call and one for every empty cell. *)
Definition minimax (b : board_t) (p : player) : option (scoredMove * board_t) :=
  minimaxFuel (S (List.length (emptyIndices b))) b p.

(* ------------------------------------------------------------------ *)
(** ** computerMove *)

(** The difficulty branches of [computerMove]: [search] is the call
    [this.minimax(this.board, 'O').index], [random] the draw among
    [emptyIndices], which also counts the random move. *)
Definition difficultyPolicy (rnd : nat) (empties : list nat) (s : TicTacToe)
  : option nat * TicTacToe :=
  let search (s : TicTacToe) : option nat * TicTacToe :=
    match minimax (board s) PlayerO with
    | Some (best, b) => (mv_index best, with_board b s)
    | None => (None, s)
    end in
  let random (s : TicTacToe) : option nat * TicTacToe :=
    (nth_error empties rnd,
     with_aiRandomMovesUsed (aiRandomMovesUsed s + 1) s) in
  if String.eqb (difficulty s) "hard" then search s
  else if String.eqb (difficulty s) "medium" then
    if aiRandomMovesUsed s <? 1 then random s else search s
  else
    if aiRandomMovesUsed s <? 2 then random s else search s.

(** The part of [computerMove] that selects [move]: immediate win, then
    block, then the difficulty policy.  [rnd] is the value of
    [Math.floor(Math.random() * emptyIndices.length)], used by the
    branches that draw a random cell.  The result is [move] ([None] for
    [undefined]) and the state, in which the board array went through the
    trial writes and the random-move counter may have grown. *)
Definition chooseMove (rnd : nat) (s : TicTacToe) : option nat * TicTacToe :=
  let empties := emptyIndices (board s) in
  let '(aiWinMove, b) := findWinningMove PlayerO (board s) in
  let s := with_board b s in
  if negb (aiWinMove =? -1)%Z then (Some (Z.to_nat aiWinMove), s)
  else
    let '(humanWinMove, b) := findWinningMove PlayerX (board s) in
    let s := with_board b s in
    if negb (humanWinMove =? -1)%Z then
      let '(again, b) := findWinningMove PlayerX (board s) in
      (Some (Z.to_nat again), with_board b s)
    else difficultyPolicy rnd empties s.

Definition computerMove (rnd : nat) (s : TicTacToe) : TicTacToe :=
  if negb (gameActive s) then s
  else
    let '(move, s) := chooseMove rnd s in
    makeMove move PlayerO s.

(** The event loop runs the oldest pending [setTimeout] callback. *)
Definition runPendingMove (rnd : nat) (s : TicTacToe) : TicTacToe :=
  match pendingMoves s with
  | 0 => s
  | S n => computerMove rnd (with_pendingMoves n s)
  end.

(** [handleCellClick(e)], [index] being [parseInt(e.target.dataset.index)]. *)
Definition handleCellClick (index : Z) (s : TicTacToe) : TicTacToe :=
  if reviewMode s
     || negb (gameActive s)
     || negb (cell_eqb (getZ (board s) index) Null)
     || negb (player_eqb (currentPlayer s) PlayerX)
  then s
  else
    let s := makeMove (Some (Z.to_nat index)) PlayerX s in
    if gameActive s && player_eqb (currentPlayer s) PlayerO
    then with_pendingMoves (S (pendingMoves s)) s
    else s.

(* ------------------------------------------------------------------ *)
(** ** Undo, redo, review, reset *)

(** The decimal text of a number inside a template string. *)
Definition showZ (z : Z) : string := NilZero.string_of_int (Z.to_int z).

(** [displayReviewMove()] *)
Definition displayReviewMove (s : TicTacToe) : TicTacToe :=
  let len := Z.of_nat (List.length (allMoves s)) in
  if (0 <=? reviewIndex s)%Z && (reviewIndex s <? len)%Z then
    match nth_error (allMoves s) (Z.to_nat (reviewIndex s)) with
    | Some move =>
        updateStatus
          (Some ("Review Mode: Move " ++ showZ (reviewIndex s + 1) ++ " of "
                 ++ showZ len ++ " - " ++ playerStr (m_player move)
                 ++ " played")%string)
          (with_board (m_board move) s)
    | None => s
    end
  else
    updateStatus (Some "Review Mode: Start of game")
                 (with_board emptyBoard s).

(** What [updateNavigationButtons()] writes into the [disabled] flags of
    the backward and of the forward button. *)
Definition updateNavigationButtons (s : TicTacToe) : bool * bool :=
  if reviewMode s then
    ((reviewIndex s <=? -1)%Z,
     (Z.of_nat (List.length (allMoves s)) - 1 <=? reviewIndex s)%Z)
  else
    (Stack.isEmpty (moveHistory s), Queue.isEmpty (redoHistory s)).

(** [moveBackward()] *)
Definition moveBackward (s : TicTacToe) : TicTacToe :=
  if reviewMode s then
    if (0 <? reviewIndex s)%Z
    then displayReviewMove (with_reviewIndex (reviewIndex s - 1)%Z s)
    else s
  else
    let '(lastMove, rest) := Stack.pop (moveHistory s) in
    let s := with_moveHistory rest s in
    match lastMove with
    | None => s
    | Some lastMove =>
        let s := with_redoHistory (Queue.enqueue lastMove (redoHistory s)) s in
        let s := with_allMoves (removelast (allMoves s)) s in
        let s :=
          if Stack.isEmpty (moveHistory s) then
            with_aiRandomMovesUsed 0
              (with_currentPlayer PlayerX (with_board emptyBoard s))
          else
            match Stack.peek (moveHistory s) with
            | Some prevMove =>
                with_aiRandomMovesUsed (m_aiRandomMovesUsed prevMove)
                  (with_currentPlayer
                     (match m_player prevMove with
                      | PlayerX => PlayerO
                      | PlayerO => PlayerX
                      end)
                     (with_board (m_board prevMove) s))
            | None => s
            end in
        updateStatus None (with_gameActive true s)
    end.

(** [moveForward()] *)
Definition moveForward (s : TicTacToe) : TicTacToe :=
  if reviewMode s then
    if (reviewIndex s <? Z.of_nat (List.length (allMoves s)) - 1)%Z
    then displayReviewMove (with_reviewIndex (reviewIndex s + 1)%Z s)
    else s
  else
    let '(nextMove, rest) := Queue.dequeue (redoHistory s) in
    let s := with_redoHistory rest s in
    match nextMove with
    | None => s
    | Some nextMove =>
        let s := with_board (m_board nextMove) s in
        let s := with_currentPlayer
                   (match m_player nextMove with
                    | PlayerX => PlayerO
                    | PlayerO => PlayerX
                    end) s in
        let s := with_aiRandomMovesUsed (m_aiRandomMovesUsed nextMove) s in
        let s := with_moveHistory (Stack.push nextMove (moveHistory s)) s in
        let s := with_allMoves (allMoves s ++ [nextMove]) s in
        let s := updateStatus None s in
        if checkWinner PlayerX (board s) || checkWinner PlayerO (board s)
           || boardFull (board s)
        then with_gameActive false s
        else s
    end.

(** [startReview()] *)
Definition startReview (s : TicTacToe) : TicTacToe :=
  if List.length (allMoves s) =? 0 then s
  else
    let s := with_reviewMode true s in
    let s := with_reviewIndex (-1)%Z s in
    let s := with_board emptyBoard s in
    updateStatus (Some "Review Mode: Use Forward to see moves") s.

(** [resetGame()]; a scheduled [computerMove] is not touched. *)
Definition resetGame (s : TicTacToe) : TicTacToe :=
  let s := with_board emptyBoard s in
  let s := with_currentPlayer PlayerX s in
  let s := with_gameActive true s in
  let s := with_moveHistory (Stack.clear (moveHistory s)) s in
  let s := with_redoHistory (Queue.clear (redoHistory s)) s in
  let s := with_allMoves [] s in
  let s := with_reviewMode false s in
  let s := with_reviewIndex (-1)%Z s in
  let s := with_aiRandomMovesUsed 0 s in
  updateStatus None s.

(** [setDifficulty(e)], [d] being [e.target.dataset.difficulty]. *)
Definition setDifficulty (d : string) (s : TicTacToe) : TicTacToe :=
  resetGame (with_difficulty d s).

(* ------------------------------------------------------------------ *)
(** ** Events and reachable states *)

(** What can happen to the page: the listeners installed by
    [setupEventListeners] and the timer of [handleCellClick]. *)
Inductive event : Type :=
| CellClick (index : Z)
| DifficultyClick (d : string)
| ResetClick
| BackwardClick
| ForwardClick
| ReviewClick
| TimerFires (rnd : nat).

Definition handle (e : event) (s : TicTacToe) : TicTacToe :=
  match e with
  | CellClick index => handleCellClick index s
  | DifficultyClick d => setDifficulty d s
  | ResetClick => resetGame s
  | BackwardClick => moveBackward s
  | ForwardClick => moveForward s
  | ReviewClick => startReview s
  | TimerFires rnd => runPendingMove rnd s
  end.

(** The events of a session, oldest first. *)
Definition run (events : list event) (s : TicTacToe) : TicTacToe :=
  fold_left (fun s e => handle e s) events s.

Inductive reachable : TicTacToe -> Prop :=
| reachable_new : reachable newGame
| reachable_step e s : reachable s -> reachable (handle e s).

(* ------------------------------------------------------------------ *)
(** ** Notions used in the statements *)

(** Cell [i] is empty and a mark of [p] there completes a line. *)
Definition completes (p : player) (b : board_t) (i : nat) : bool :=
  cell_eqb (get b i) Null && checkWinner p (set i (Mark p) b).

(** [i] is the lowest index on which [f] holds. *)
Definition lowest (f : nat -> bool) (i : nat) : Prop :=
  f i = true /\ forall j, j < i -> f j = false.

(** The score [minimax] gives the board after [p] has taken cell [i],
    the other mark being to move. *)
Definition childScore (p : player) (b : board_t) (i : nat) : option Z :=
  match minimax (set i (Mark p) b) (other p) with
  | Some (result, _) => Some (mv_score result)
  | None => None
  end.

(** The score the loop of [minimax] stores for cell [i]: the score the
    recursive call [search] returns on the board with the mark in [i]
    (0 stands in where the call gives no result; it always gives one,
    see [minimax_total]). *)
Definition scoreAfter (search : board_t -> option (scoredMove * board_t))
           (p : player) (b : board_t) (i : nat) : Z :=
  match search (set i (Mark p) b) with
  | Some (result, _) => mv_score result
  | None => 0%Z
  end.

(** Score [s] is strictly better for [p] than score [t]: ['O'] maximizes,
    ['X'] minimizes. *)
Definition betterFor (p : player) (s t : Z) : Prop :=
  match p with
  | PlayerO => (t < s)%Z
  | PlayerX => (s < t)%Z
  end.

(** Positions of a game in which the marks are placed in turn by
    [makeMove], on empty cells, while the game is active. *)
Inductive played : TicTacToe -> Prop :=
| played_new : played newGame
| played_move s i :
    played s -> gameActive s = true -> get (board s) i = Null ->
    played (makeMove (Some i) (currentPlayer s) s).

(** The undo stack, oldest record first, is the full log. *)
Definition stackIsLog (s : TicTacToe) : Prop :=
  Stack.items (moveHistory s) = allMoves s.

(** A game on the default difficulty played to its end, a draw: the
    first computer move is the random one (cell 4), the others are
    blocks and one search. *)
Definition drawnGame : TicTacToe :=
  run [CellClick 0; TimerFires 3; CellClick 1; TimerFires 0;
       CellClick 6; TimerFires 0; CellClick 5; TimerFires 0;
       CellClick 8] newGame.

(** Four moves of a game on the default difficulty, the last of them
    taken back. *)
Definition oneUndone : TicTacToe :=
  run [CellClick 0; TimerFires 3; CellClick 1; TimerFires 0;
       BackwardClick] newGame.

(** The board and every recorded snapshot have the nine cells. *)
Definition nineCells (s : TicTacToe) : Prop :=
  List.length (board s) = 9
  /\ Forall (fun m => List.length (m_board m) = 9) (allMoves s)
  /\ Forall (fun m => List.length (m_board m) = 9)
            (Stack.items (moveHistory s))
  /\ Forall (fun m => List.length (m_board m) = 9)
            (Queue.items (redoHistory s)).

(** A game on hard difficulty. *)
Definition hardGame : TicTacToe := setDifficulty "hard" newGame.

(** The events of plain play: the clicks of the human player and the
    timer of the computer's move. *)
Definition isPlay (e : event) : bool :=
  match e with
  | CellClick _ | TimerFires _ => true
  | _ => false
  end.

(** The human mark has no line, and a game that is over was announced as
    won by ['O'] or drawn. *)
Definition notLost (s : TicTacToe) : bool :=
  negb (checkWinner PlayerX (board s))
  && (gameActive s
      || String.eqb (statusText s) "O wins!"
      || String.eqb (statusText s) "It's a draw!").

(** A hard game outside review, on a board of nine cells. *)
Definition hardPlay (s : TicTacToe) : bool :=
  (List.length (board s) =? 9)
  && negb (reviewMode s)
  && String.eqb (difficulty s) "hard".

(** Every continuation of the game from [s], where no timer is pending,
    keeps [notLost]: after each click on an empty cell, where the game is
    over or the turn is with ['O'] and its timer pending, and after the
    computer's move that follows.  At most [depth] clicks are followed;
    the game must be over when [depth] runs out. *)
Fixpoint explore (depth : nat) (s : TicTacToe) : bool :=
  notLost s && hardPlay s && (pendingMoves s =? 0)
  && (if gameActive s then
        match depth with
        | 0 => false
        | S depth' =>
            forallb (fun i =>
                       if cell_eqb (get (board s) i) Null
                       then
                         let clicked := handleCellClick (Z.of_nat i) s in
                         notLost clicked
                         && ((pendingMoves clicked =? 0)
                             || player_eqb (currentPlayer clicked) PlayerO)
                         && explore depth' (runPendingMove 0 clicked)
                       else true)
                    (seq 0 9)
        end
      else true).

(** The states of plain play on hard difficulty: between two turns of the
    human player, or with the computer's move pending. *)
Definition inPlay (s : TicTacToe) : Prop :=
  (exists depth, explore depth s = true)
  \/ (notLost s = true
      /\ currentPlayer s = PlayerO
      /\ String.eqb (difficulty s) "hard" = true
      /\ exists depth, explore depth (runPendingMove 0 s) = true).

(* ------------------------------------------------------------------ *)
(** ** Notions used in the further properties *)

(** [push] for every element of [xs], first element first. *)
Definition pushAll {A : Type} (xs : list A) (st : Stack.t A) : Stack.t A :=
  fold_left (fun st e => Stack.push e st) xs st.

(** [n] calls of [pop] in a row: what they return, first call first, and
    the stack they leave. *)
Fixpoint popN {A : Type} (n : nat) (st : Stack.t A)
  : list (option A) * Stack.t A :=
  match n with
  | 0 => ([], st)
  | S n' =>
      let '(e, st) := Stack.pop st in
      let '(es, st) := popN n' st in
      (e :: es, st)
  end.

(** [enqueue] for every element of [xs], first element first. *)
Definition enqueueAll {A : Type} (xs : list A) (q : Queue.t A) : Queue.t A :=
  fold_left (fun q e => Queue.enqueue e q) xs q.

(** [n] calls of [dequeue] in a row: what they return, first call first,
    and the queue they leave. *)
Fixpoint dequeueN {A : Type} (n : nat) (q : Queue.t A)
  : list (option A) * Queue.t A :=
  match n with
  | 0 => ([], q)
  | S n' =>
      let '(e, q) := Queue.dequeue q in
      let '(es, q) := dequeueN n' q in
      (e :: es, q)
  end.

(** The snapshot on top of the undo stack, the empty board under an
    empty stack. *)
Definition topBoard (s : TicTacToe) : board_t :=
  match Stack.peek (moveHistory s) with
  | Some m => m_board m
  | None => emptyBoard
  end.

(** The random-move counter recorded on top of the undo stack, 0 under
    an empty stack. *)
Definition topCounter (s : TicTacToe) : nat :=
  match Stack.peek (moveHistory s) with
  | Some m => m_aiRandomMovesUsed m
  | None => 0
  end.

(** The mark to move after the record on top of the undo stack, ['X']
    under an empty stack. *)
Definition topTurn (s : TicTacToe) : player :=
  match Stack.peek (moveHistory s) with
  | Some m => other (m_player m)
  | None => PlayerX
  end.

(** The number of random moves [computerMove] allows on a difficulty. *)
Definition budget (d : string) : nat :=
  if String.eqb d "hard" then 0
  else if String.eqb d "medium" then 1
  else 2.

(** The counter and every recorded counter are within the budget. *)
Definition withinBudget (s : TicTacToe) : Prop :=
  aiRandomMovesUsed s <= budget (difficulty s)
  /\ Forall (fun m => m_aiRandomMovesUsed m <= budget (difficulty s))
            (Stack.items (moveHistory s))
  /\ Forall (fun m => m_aiRandomMovesUsed m <= budget (difficulty s))
            (Queue.items (redoHistory s)).

(** The live state agrees with the top of the undo stack: the counter
    always, the board outside review. *)
Definition agreesWithTop (s : TicTacToe) : Prop :=
  aiRandomMovesUsed s = topCounter s
  /\ (reviewMode s = false -> board s = topBoard s).

(** A board on which the game is over: a line of either mark, or no
    empty cell. *)
Definition terminalBoard (b : board_t) : bool :=
  checkWinner PlayerX b || checkWinner PlayerO b || boardFull b.

(** The events that do not start a new game. *)
Definition keepsGame (e : event) : bool :=
  match e with
  | ResetClick | DifficultyClick _ => false
  | _ => true
  end.

(** The review index is -1 outside review and points into the log, or at
    its start, in review. *)
Definition reviewIndexInLog (s : TicTacToe) : Prop :=
  (reviewMode s = false -> reviewIndex s = (-1)%Z)
  /\ (-1 <= reviewIndex s)%Z
  /\ (reviewIndex s < Z.of_nat (List.length (allMoves s))
      \/ reviewIndex s = (-1)%Z)%Z.

(* ------------------------------------------------------------------ *)
(** ** The board array *)

Lemma player_eqb_eq p q : player_eqb p q = true <-> p = q.
Proof. destruct p, q; simpl; split; congruence. Qed.

Lemma cell_eqb_eq c d : cell_eqb c d = true <-> c = d.
Proof.
  destruct c as [|p|], d as [|q|]; simpl; split; try congruence.
  - intros H. apply player_eqb_eq in H. now subst.
  - intros H. apply player_eqb_eq. congruence.
Qed.

Lemma cell_eqb_refl c : cell_eqb c c = true.
Proof. now apply cell_eqb_eq. Qed.

Lemma get_set_same i v b : get (set i v b) i = v.
Proof.
  unfold get. revert b.
  induction i as [|i IH]; intros [|c t]; simpl; auto.
Qed.

Lemma get_nil j : get [] j = Undefined.
Proof. unfold get. now destruct j. Qed.

Lemma get_set_other i j v b : i <> j -> get (set i v b) j = get b j.
Proof.
  unfold get. revert j b.
  induction i as [|i IH]; intros [|j] [|c t] Hij; simpl; try congruence.
  - now destruct j.
  - rewrite IH by congruence. now destruct j.
  - apply IH. congruence.
Qed.

Lemma get_Null_in_range b i : get b i = Null -> i < List.length b.
Proof.
  unfold get. intros H.
  destruct (Nat.lt_ge_cases i (List.length b)) as [Hlt|Hge]; trivial.
  rewrite nth_overflow in H by trivial. discriminate.
Qed.

Lemma length_set i v b : i < List.length b -> List.length (set i v b) = List.length b.
Proof.
  revert b. induction i as [|i IH]; intros [|c t] H; simpl in *; try lia.
  rewrite IH; lia.
Qed.

Lemma set_set i v w b : set i w (set i v b) = set i w b.
Proof.
  revert b. induction i as [|i IH]; intros [|c t]; simpl; trivial;
    now rewrite IH.
Qed.

Lemma set_get i b : i < List.length b -> set i (get b i) b = b.
Proof.
  unfold get. revert b.
  induction i as [|i IH]; intros [|c t] H; simpl in *; try lia; trivial.
  rewrite IH; trivial. lia.
Qed.

(** Erasing a trial mark gives the board back. *)
Lemma set_restore i v b : get b i = Null -> set i Null (set i v b) = b.
Proof.
  intros H. rewrite set_set. rewrite <- H at 1.
  apply set_get. now apply get_Null_in_range.
Qed.

Lemma in_emptyFrom k b i :
  In i (emptyFrom k b) <-> k <= i /\ get b (i - k) = Null.
Proof.
  revert k. induction b as [|c t IH]; intros k; simpl.
  - rewrite get_nil. split; [tauto | intros [_ H]; discriminate].
  - rewrite in_app_iff, IH. unfold get. split.
    + intros [H | [Hle H]].
      * destruct (cell_eqb c Null) eqn:E; simpl in H; [|tauto].
        destruct H as [<- | []]. rewrite Nat.sub_diag. simpl.
        split; [lia | now apply cell_eqb_eq].
      * split; [lia|]. replace (i - k) with (S (i - S k)) by lia. exact H.
    + intros [Hle H]. destruct (Nat.eq_dec i k) as [-> | Hne].
      * left. rewrite Nat.sub_diag in H. simpl in H. subst c. simpl. auto.
      * right. split; [lia|].
        replace (i - k) with (S (i - S k)) in H by lia. exact H.
Qed.

Lemma in_emptyIndices b i : In i (emptyIndices b) <-> get b i = Null.
Proof.
  unfold emptyIndices. rewrite in_emptyFrom, Nat.sub_0_r.
  split; [tauto | split; [lia | trivial]].
Qed.

(** The empty cells are listed in ascending order. *)
Lemma emptyFrom_ascending k b pre i post :
  emptyFrom k b = pre ++ i :: post ->
  (forall j, In j pre -> j < i) /\ (forall j, In j post -> i < j).
Proof.
  revert k pre. induction b as [|c t IH]; intros k pre; simpl.
  - destruct pre; discriminate.
  - destruct (cell_eqb c Null); simpl.
    + destruct pre as [|x pre]; simpl; intros H; injection H as -> Hrest.
      * split; [intros j []|]. intros j Hj.
        assert (In j (emptyFrom (S i) t)) as Hin by (rewrite Hrest; trivial).
        apply in_emptyFrom in Hin. lia.
      * destruct (IH _ _ Hrest) as [Hpre Hpost]. split; trivial.
        intros j [<- | Hj]; auto.
        assert (In i (emptyFrom (S x) t)) as Hin
            by (rewrite Hrest; apply in_elt).
        apply in_emptyFrom in Hin. lia.
    + apply IH.
Qed.

Lemma length_emptyFrom_set k i p b :
  get b i = Null ->
  S (List.length (emptyFrom k (set i (Mark p) b))) = List.length (emptyFrom k b).
Proof.
  unfold get. revert k b.
  induction i as [|i IH]; intros k [|c t] H; simpl in *; try discriminate.
  - subst c. simpl. trivial.
  - rewrite !length_app. rewrite <- (IH (S k) t H). lia.
Qed.

Lemma length_emptyIndices_set i p b :
  get b i = Null ->
  S (List.length (emptyIndices (set i (Mark p) b))) = List.length (emptyIndices b).
Proof. apply length_emptyFrom_set. Qed.

(* ------------------------------------------------------------------ *)
(** ** The status line and the stack *)

(** [updateStatus] writes the status line and nothing else. *)
Lemma updateStatus_frame message s :
  exists text, updateStatus message s = with_statusText text s.
Proof.
  unfold updateStatus.
  destruct message as [m|]; simpl.
  - destruct (String.eqb m EmptyString); simpl; [|eauto].
    destruct (gameActive s); [eauto|].
    exists (statusText s). now destruct s.
  - destruct (gameActive s); [eauto|].
    exists (statusText s). now destruct s.
Qed.

Ltac status_frame :=
  repeat match goal with
         | |- context [updateStatus ?m ?s] =>
             let text := fresh "text" in
             let E := fresh "E" in
             destruct (updateStatus_frame m s) as [text E];
             rewrite E; clear E
         end.

Lemma unsnoc_app {A : Type} (l : list A) (x : A) : unsnoc (l ++ [x]) = Some (l, x).
Proof.
  induction l as [|y l IH]; simpl; trivial. now rewrite IH.
Qed.

Lemma unsnoc_Some {A : Type} (l rest : list A) (x : A) :
  unsnoc l = Some (rest, x) -> l = rest ++ [x].
Proof.
  revert rest. induction l as [|y l IH]; simpl; intros rest H; [discriminate|].
  destruct (unsnoc l) as [[t' z]|] eqn:E.
  - injection H as <- <-. simpl. f_equal. now apply IH.
  - injection H as <- <-. destruct l as [|w l]; trivial.
    simpl in E. destruct (unsnoc l) as [[? ?]|]; discriminate.
Qed.

Lemma unsnoc_None {A : Type} (l : list A) : unsnoc l = None -> l = [].
Proof.
  destruct l as [|y l]; simpl; trivial.
  destruct (unsnoc l) as [[? ?]|]; discriminate.
Qed.

(** [pop] on a stack whose last push was [e]. *)
Lemma pop_push {A : Type} (e : A) (st : Stack.t A) :
  Stack.pop (Stack.push e st) = (Some e, Stack.mk (Stack.items st)).
Proof.
  unfold Stack.pop, Stack.push, Stack.isEmpty. simpl.
  rewrite unsnoc_app. now destruct (Stack.items st).
Qed.

(** What [pop] returns, by the items of the stack. *)
Lemma pop_cases {A : Type} (st : Stack.t A) :
  (Stack.items st = [] /\ Stack.pop st = (None, st))
  \/ exists rest e,
      Stack.items st = rest ++ [e] /\ Stack.pop st = (Some e, Stack.mk rest).
Proof.
  unfold Stack.pop, Stack.isEmpty.
  destruct (Stack.items st) as [|x l] eqn:E; [now left | right].
  destruct (unsnoc (x :: l)) as [[rest e]|] eqn:U.
  - exists rest, e. split; trivial. now apply unsnoc_Some.
  - apply unsnoc_None in U. discriminate.
Qed.

(* ------------------------------------------------------------------ *)
(** ** Committing a move *)

(** What [makeMove] does to the three history structures. *)
Lemma makeMove_log index p s :
  allMoves (makeMove index p s)
  = allMoves s ++ [MoveData index p (write index (Mark p) (board s))
                            (aiRandomMovesUsed s)]
  /\ Stack.items (moveHistory (makeMove index p s))
     = Stack.items (moveHistory s)
         ++ [MoveData index p (write index (Mark p) (board s))
                      (aiRandomMovesUsed s)]
  /\ Queue.items (redoHistory (makeMove index p s)) = [].
Proof.
  unfold makeMove. simpl.
  destruct (checkWinner p _); [|destruct (boardFull _)];
    status_frame; simpl; auto.
Qed.

(** C7.  Right after [makeMove] has committed the record [m] of a new
    move, in any state (so also after any number of undos), the redo
    queue is empty, the full log [allMoves] is the old log followed by
    [m], so [m] is its last element, and [m] is on top of the undo
    stack. *)
Theorem makeMove_commit (index : option nat) (p : player) (s : TicTacToe) :
  let m := MoveData index p (write index (Mark p) (board s))
                    (aiRandomMovesUsed s) in
  let s' := makeMove index p s in
  Queue.items (redoHistory s') = []
  /\ Queue.isEmpty (redoHistory s') = true
  /\ allMoves s' = allMoves s ++ [m]
  /\ (forall d, last (allMoves s') d = m)
  /\ Stack.items (moveHistory s') = Stack.items (moveHistory s) ++ [m]
  /\ Stack.peek (moveHistory s') = Some m.
Proof.
  intros m s'.
  destruct (makeMove_log index p s) as (Hlog & Hst & Hq).
  fold m in Hlog, Hst. fold s' in Hlog, Hst, Hq.
  repeat split; trivial.
  - unfold Queue.isEmpty. now rewrite Hq.
  - intros d. rewrite Hlog. apply last_last.
  - unfold Stack.peek, Stack.isEmpty. rewrite Hst.
    destruct (Stack.items (moveHistory s) ++ [m]) eqn:E.
    + destruct (Stack.items (moveHistory s)); discriminate.
    + rewrite <- E, length_app, nth_error_app2; simpl; [|lia].
      replace (_ - _) with 0 by lia. trivial.
Qed.

(* ------------------------------------------------------------------ *)
(** ** Refused clicks *)

(** C8.  A click on a cell is refused, and the whole state (board, undo
    stack, redo queue, full log, active mark, counters, pending timer)
    stays as it is, when the cell holds a mark, when the index is outside
    0..8 of the nine-cell board, when the game is not active, or when
    review mode is on.  The handler is a total function: it returns in
    all these cases. *)
Theorem handleCellClick_noop (index : Z) (s : TicTacToe) :
  List.length (board s) = 9 ->
  (exists p, getZ (board s) index = Mark p)
  \/ (index < 0 \/ 8 < index)%Z
  \/ gameActive s = false
  \/ reviewMode s = true ->
  handleCellClick index s = s.
Proof.
  intros Hlen H. unfold handleCellClick.
  destruct (reviewMode s) eqn:Hr; simpl; trivial.
  destruct (gameActive s) eqn:Ha; simpl; trivial.
  assert (cell_eqb (getZ (board s) index) Null = false) as ->; trivial.
  destruct H as [[p Hp] | [Hout | [H | H]]]; try discriminate.
  - now rewrite Hp.
  - unfold getZ. destruct (index <? 0)%Z eqn:Hneg; trivial.
    apply Z.ltb_ge in Hneg. unfold get.
    rewrite nth_overflow; trivial. lia.
Qed.

Lemma handleCellClick_noop_witness :
  handleCellClick 9 newGame = newGame.
Proof.
  apply handleCellClick_noop.
  - reflexivity.
  - right. left. right. reflexivity.
Defined.

(* ------------------------------------------------------------------ *)
(** ** findWinningMove leaves the board as it found it *)

Lemma findWinningLoop_find p candidates b :
  (forall i, In i candidates -> get b i = Null) ->
  findWinningLoop p candidates b =
  (match find (fun i => checkWinner p (set i (Mark p) b)) candidates with
   | Some i => Z.of_nat i
   | None => (-1)%Z
   end, b).
Proof.
  induction candidates as [|i rest IH]; intros Hnull; simpl; trivial.
  rewrite set_restore by (apply Hnull; now left).
  destruct (checkWinner p (set i (Mark p) b)); trivial.
  apply IH. intros j Hj. apply Hnull. now right.
Qed.

Lemma findWinningMove_find p b :
  findWinningMove p b =
  (match find (fun i => checkWinner p (set i (Mark p) b)) (emptyIndices b) with
   | Some i => Z.of_nat i
   | None => (-1)%Z
   end, b).
Proof.
  apply findWinningLoop_find. intros i. apply in_emptyIndices.
Qed.

Lemma findWinningMove_board p b : snd (findWinningMove p b) = b.
Proof. now rewrite findWinningMove_find. Qed.

(* ------------------------------------------------------------------ *)
(** ** What the handlers leave alone *)

(** Selecting the computer's move touches the board array and the
    random-move counter only. *)
Lemma difficultyPolicy_frame rnd empties s :
  exists b n,
    snd (difficultyPolicy rnd empties s)
    = with_aiRandomMovesUsed n (with_board b s).
Proof.
  destruct s as [b0 cp ga df mh rh rm am ri n0 st pm].
  unfold difficultyPolicy. simpl.
  destruct (String.eqb df "hard");
    [|destruct (String.eqb df "medium");
      [destruct (n0 <? 1)|destruct (n0 <? 2)]];
    try (destruct (minimax b0 PlayerO) as [[best b]|]);
    simpl; do 2 eexists;
    unfold with_aiRandomMovesUsed, with_board; simpl; reflexivity.
Qed.

Lemma chooseMove_frame rnd s :
  exists b n,
    snd (chooseMove rnd s) = with_aiRandomMovesUsed n (with_board b s).
Proof.
  unfold chooseMove.
  destruct (findWinningMove PlayerO (board s)) as [aiWinMove b1].
  destruct (negb (aiWinMove =? -1)%Z); simpl.
  { exists b1, (aiRandomMovesUsed s). now destruct s. }
  destruct (findWinningMove PlayerX b1) as [humanWinMove b2].
  destruct (negb (humanWinMove =? -1)%Z); simpl.
  - destruct (findWinningMove PlayerX b2) as [again b3]. simpl.
    exists b3, (aiRandomMovesUsed s). now destruct s.
  - destruct (difficultyPolicy_frame rnd (emptyIndices (board s))
                (with_board b2 (with_board b1 s))) as (b & n & E).
    rewrite E. exists b, n. reflexivity.
Qed.

Lemma displayReviewMove_log s :
  allMoves (displayReviewMove s) = allMoves s
  /\ moveHistory (displayReviewMove s) = moveHistory s.
Proof.
  unfold displayReviewMove.
  destruct (_ && _); [destruct (nth_error _ _)|]; status_frame; auto.
Qed.

(* ------------------------------------------------------------------ *)
(** ** The undo stack and the full log *)

Lemma makeMove_stackIsLog index p s :
  stackIsLog s -> stackIsLog (makeMove index p s).
Proof.
  unfold stackIsLog. intros H.
  destruct (makeMove_log index p s) as (-> & -> & _). now rewrite H.
Qed.

Lemma computerMove_stackIsLog rnd s :
  stackIsLog s -> stackIsLog (computerMove rnd s).
Proof.
  intros H. unfold computerMove.
  destruct (negb (gameActive s)); trivial.
  destruct (chooseMove_frame rnd s) as (b & n & E).
  destruct (chooseMove rnd s) as [move s']. simpl in E. subst s'.
  apply makeMove_stackIsLog. exact H.
Qed.

Lemma moveBackward_stackIsLog s : stackIsLog s -> stackIsLog (moveBackward s).
Proof.
  unfold stackIsLog, moveBackward. intros H.
  destruct (reviewMode s).
  - destruct (0 <? reviewIndex s)%Z; trivial.
    destruct (displayReviewMove_log (with_reviewIndex (reviewIndex s - 1) s))
      as [-> ->]. exact H.
  - destruct (pop_cases (moveHistory s)) as [[_ ->] | (rest & e & Hit & ->)];
      [exact H|].
    status_frame. simpl.
    assert (removelast (allMoves s) = rest) as ->
        by (rewrite <- H, Hit; apply removelast_last).
    destruct (Stack.isEmpty (Stack.mk rest)); simpl; trivial.
    destruct (Stack.peek (Stack.mk rest)); trivial.
Qed.

Lemma moveForward_stackIsLog s : stackIsLog s -> stackIsLog (moveForward s).
Proof.
  unfold stackIsLog, moveForward. intros H.
  destruct (reviewMode s).
  - destruct (_ <? _)%Z; trivial.
    destruct (displayReviewMove_log (with_reviewIndex (reviewIndex s + 1) s))
      as [-> ->]. exact H.
  - destruct (Queue.dequeue (redoHistory s)) as [[nextMove|] rest]; [|exact H].
    match goal with
    | |- context [if ?c then _ else _] => destruct c
    end; status_frame; simpl; now rewrite H.
Qed.

Lemma handle_stackIsLog e s : stackIsLog s -> stackIsLog (handle e s).
Proof.
  intros H. destruct e as [index|d| | | | |rnd]; simpl.
  - unfold handleCellClick.
    destruct (_ || _); trivial.
    pose proof (makeMove_stackIsLog (Some (Z.to_nat index)) PlayerX s H) as H'.
    destruct (_ && _); trivial.
  - unfold setDifficulty, resetGame, stackIsLog. status_frame. reflexivity.
  - unfold resetGame, stackIsLog. status_frame. reflexivity.
  - now apply moveBackward_stackIsLog.
  - now apply moveForward_stackIsLog.
  - unfold startReview. destruct (_ =? 0); [exact H|].
    unfold stackIsLog. status_frame. exact H.
  - unfold runPendingMove. destruct (pendingMoves s); trivial.
    apply computerMove_stackIsLog. exact H.
Qed.

(** C10.  In every state the page can reach (cell clicks, the deferred
    computer move, backward, forward, review, reset, change of
    difficulty), the undo stack read from the oldest record to the newest
    is the full log [allMoves]: a move that was undone is in neither. *)
Theorem undoStack_is_fullLog (s : TicTacToe) :
  reachable s -> Stack.items (moveHistory s) = allMoves s.
Proof.
  induction 1 as [|e s _ IH].
  - reflexivity.
  - now apply handle_stackIsLog.
Qed.

Lemma undoStack_is_fullLog_witness :
  let s := handle BackwardClick
             (handle (TimerFires 2) (handle (CellClick 4) newGame)) in
  Stack.items (moveHistory s) = allMoves s.
Proof.
  apply undoStack_is_fullLog.
  do 3 apply reachable_step. apply reachable_new.
Defined.

(* ------------------------------------------------------------------ *)
(** ** At most one winner *)

Lemma makeMove_board index p s :
  board (makeMove index p s) = write index (Mark p) (board s).
Proof.
  unfold makeMove. simpl.
  destruct (checkWinner p _); [|destruct (boardFull _)];
    status_frame; reflexivity.
Qed.

Lemma makeMove_gameActive index p s :
  gameActive (makeMove index p s)
  = gameActive s
    && negb (checkWinner p (write index (Mark p) (board s)))
    && negb (boardFull (write index (Mark p) (board s))).
Proof.
  unfold makeMove. simpl.
  destruct (checkWinner p _); [|destruct (boardFull _)];
    status_frame; simpl; destruct (gameActive s); reflexivity.
Qed.

(** A mark of [p] completes no line of the other mark. *)
Lemma checkWinner_set_other p q i b :
  p <> q ->
  checkWinner q (set i (Mark p) b) = true -> checkWinner q b = true.
Proof.
  intros Hpq. unfold checkWinner. rewrite !existsb_exists.
  intros (pattern & Hin & Hall). exists pattern. split; trivial.
  rewrite forallb_forall in *. intros index Hindex.
  specialize (Hall index Hindex).
  destruct (Nat.eq_dec i index) as [-> | Hne].
  - rewrite get_set_same in Hall. apply cell_eqb_eq in Hall. congruence.
  - now rewrite get_set_other in Hall.
Qed.

Lemma played_winners s :
  played s ->
  (gameActive s = true ->
   checkWinner PlayerX (board s) = false
   /\ checkWinner PlayerO (board s) = false)
  /\ (checkWinner PlayerX (board s) = false
      \/ checkWinner PlayerO (board s) = false).
Proof.
  induction 1 as [|s i _ [IH _] Hactive Hnull].
  - split; [split|left]; reflexivity.
  - destruct (IH Hactive) as [HX HO].
    rewrite makeMove_board, makeMove_gameActive, Hactive. simpl.
    assert (forall q, currentPlayer s <> q ->
                      checkWinner q (set i (Mark (currentPlayer s)) (board s))
                      = false) as Hother.
    { intros q Hq.
      destruct (checkWinner q (set i _ _)) eqn:E; trivial.
      apply checkWinner_set_other in E; trivial.
      destruct q; congruence. }
    destruct (currentPlayer s).
    + rewrite (Hother PlayerO) by discriminate. split; [|now right].
      simpl. intros H. split; trivial.
      destruct (checkWinner PlayerX (set _ _ _)); [simpl in H; discriminate H | trivial].
    + rewrite (Hother PlayerX) by discriminate. split; [|now left].
      simpl. intros H. split; trivial.
      destruct (checkWinner PlayerO (set _ _ _)); [simpl in H; discriminate H | trivial].
Qed.

(** C9.  On every board reached from the empty board by marks placed in
    turn on empty cells while the game is active, [checkWinner('X')] and
    [checkWinner('O')] are not both true. *)
Theorem played_not_both_winners (s : TicTacToe) :
  played s ->
  ~ (checkWinner PlayerX (board s) = true
     /\ checkWinner PlayerO (board s) = true).
Proof.
  intros H [HX HO].
  destruct (played_winners s H) as [_ [E | E]]; congruence.
Qed.

Lemma played_not_both_winners_witness :
  let s := makeMove (Some 0) PlayerO (makeMove (Some 4) PlayerX newGame) in
  ~ (checkWinner PlayerX (board s) = true
     /\ checkWinner PlayerO (board s) = true).
Proof.
  apply played_not_both_winners.
  apply (played_move (makeMove (Some 4) PlayerX newGame) 0);
    [apply (played_move newGame 4); [apply played_new | reflexivity ..]
    | reflexivity ..].
Defined.

(* ------------------------------------------------------------------ *)
(** ** Stepping backward in review mode *)

(** X26.  In review mode, above the first move, the step backward moves
    the review index one record down and shows the snapshot stored
    there. *)
Lemma moveBackward_review_later (s : TicTacToe) :
  reviewMode s = true ->
  (0 < reviewIndex s < Z.of_nat (List.length (allMoves s)))%Z ->
  reviewIndex (moveBackward s) = (reviewIndex s - 1)%Z
  /\ exists move,
      nth_error (allMoves s) (Z.to_nat (reviewIndex s - 1)) = Some move
      /\ board (moveBackward s) = m_board move.
Proof.
  intros Hr Hi. unfold moveBackward. rewrite Hr.
  destruct (Z.ltb_spec 0 (reviewIndex s)) as [_|]; [|lia].
  unfold displayReviewMove. simpl.
  destruct (Z.leb_spec 0 (reviewIndex s - 1)) as [_|]; [|lia].
  destruct (Z.ltb_spec (reviewIndex s - 1)
                       (Z.of_nat (List.length (allMoves s)))) as [_|]; [|lia].
  simpl.
  destruct (nth_error (allMoves s) (Z.to_nat (reviewIndex s - 1)))
    as [move|] eqn:E.
  - status_frame. simpl. eauto.
  - apply nth_error_None in E. lia.
Qed.

(** On the first move the step does nothing. *)
Lemma moveBackward_review_first (s : TicTacToe) :
  reviewMode s = true -> reviewIndex s = 0%Z -> moveBackward s = s.
Proof.
  intros Hr Hi. unfold moveBackward. now rewrite Hr, Hi.
Qed.

(** C5.  After the game [drawnGame], review mode entered and one step
    forward, the review index is 0 and the backward button is enabled
    ([updateNavigationButtons] disables it at -1 only).  The step
    backward changes nothing: the index stays 0 and the board stays the
    snapshot of the first move, where the index -1 and the empty board
    were due. *)
Theorem moveBackward_review_index_0 :
  let s := run [ReviewClick; ForwardClick] drawnGame in
  reviewMode s = true
  /\ reviewIndex s = 0%Z
  /\ fst (updateNavigationButtons s) = false
  /\ moveBackward s = s
  /\ reviewIndex (moveBackward s) <> (-1)%Z
  /\ board (moveBackward s) = set 0 (Mark PlayerX) emptyBoard
  /\ board (moveBackward s) <> emptyBoard.
Proof.
  vm_compute. repeat split; discriminate.
Qed.

(* ------------------------------------------------------------------ *)
(** ** A reset while the computer's move is pending *)

(** X28.  A deferred computer move that runs when the game is not
    active is dropped: the timer is used up and nothing else changes. *)
Lemma runPendingMove_inactive rnd s :
  gameActive s = false ->
  runPendingMove rnd s = with_pendingMoves (pendingMoves s - 1) s.
Proof.
  intros H. unfold runPendingMove.
  destruct (pendingMoves s) as [|n] eqn:E.
  - destruct s; simpl in *; now subst.
  - unfold computerMove. simpl. rewrite H. simpl. now rewrite Nat.sub_0_r.
Qed.

(** C6.  The human clicks cell 0, and the game is reset before the
    computer's deferred move has run.  The reset leaves the callback
    pending over the empty board; when it runs, the game is active
    again, so it places an ['O'] (here the random draw takes cell 3) on
    the board of the new game and hands the turn to ['O']. *)
Theorem pending_move_survives_reset :
  let fresh := run [CellClick 0; ResetClick] newGame in
  let late := handle (TimerFires 3) fresh in
  board fresh = emptyBoard
  /\ pendingMoves fresh = 1
  /\ board late = set 3 (Mark PlayerO) emptyBoard
  /\ board late <> board fresh
  /\ currentPlayer late = PlayerO
  /\ pendingMoves late = 0.
Proof.
  vm_compute. repeat split; discriminate.
Qed.

(* ------------------------------------------------------------------ *)
(** ** Undo followed by redo *)

(** X24.  With an empty redo queue, outside review, undo followed by
    redo brings back the record the undo took from the stack: the board,
    the counter and the turn are those of that record, the undo stack is
    as before and the redo queue is empty again. *)
Lemma undo_redo_empty_queue (s : TicTacToe) rest m :
  reviewMode s = false ->
  Queue.items (redoHistory s) = [] ->
  Stack.items (moveHistory s) = rest ++ [m] ->
  let s' := moveForward (moveBackward s) in
  board s' = m_board m
  /\ currentPlayer s' = other (m_player m)
  /\ aiRandomMovesUsed s' = m_aiRandomMovesUsed m
  /\ Stack.items (moveHistory s') = rest ++ [m]
  /\ Queue.items (redoHistory s') = [].
Proof.
  intros Hr Hq Hst s'. subst s'. unfold moveBackward. rewrite Hr.
  destruct (pop_cases (moveHistory s)) as [[E _] | (rest' & e & E & ->)].
  { rewrite Hst in E. destruct rest; discriminate. }
  rewrite Hst in E. apply app_inj_tail in E. destruct E as [<- <-].
  status_frame.
  match goal with
  | |- context [with_statusText _ (with_gameActive true ?t)] =>
      remember t as u eqn:Eu
  end.
  assert (reviewMode u = false
          /\ moveHistory u = Stack.mk rest
          /\ Queue.items (redoHistory u) = [m]) as (Hr' & Hst' & Hq')
    by (subst u; destruct (Stack.isEmpty _); [|destruct (Stack.peek _)];
        simpl; rewrite Hq; auto).
  clear Eu.
  unfold moveForward, Queue.dequeue, Queue.isEmpty. simpl.
  rewrite Hr', Hq', Hst'. simpl.
  match goal with
  | |- context [if ?c then _ else _] => destruct c
  end; status_frame; simpl;
    (repeat split; trivial; now destruct (m_player m)).
Qed.

(** C3.  In [oneUndone] play is live, three moves are on the undo stack
    and the fourth waits in the redo queue.  An undo puts the third move
    behind it in the queue, and the redo that follows takes the fourth
    from the front: the board and the active mark after the two steps
    are those of the fourth move, not those before the undo. *)
Theorem undo_redo_after_undo :
  let s := oneUndone in
  let s' := moveForward (moveBackward s) in
  reviewMode s = false
  /\ gameActive s = true
  /\ Stack.isEmpty (moveHistory s) = false
  /\ board s
     = [Mark PlayerX; Mark PlayerX; Null; Null; Mark PlayerO;
        Null; Null; Null; Null]
  /\ board s'
     = [Mark PlayerX; Mark PlayerX; Mark PlayerO; Null; Mark PlayerO;
        Null; Null; Null; Null]
  /\ board s' <> board s
  /\ currentPlayer s = PlayerO
  /\ currentPlayer s' = PlayerX.
Proof.
  vm_compute. repeat split; discriminate.
Qed.

(* ------------------------------------------------------------------ *)
(** ** Win first, block second *)

Lemma find_first {A : Type} (f : A -> bool) (l : list A) (x : A) :
  find f l = Some x ->
  exists pre post,
    l = pre ++ x :: post /\ f x = true /\ forall y, In y pre -> f y = false.
Proof.
  induction l as [|a l IH]; simpl; [discriminate|].
  destruct (f a) eqn:E.
  - intros [= <-]. exists [], l. repeat split; trivial. intros y [].
  - intros H. destruct (IH H) as (pre & post & -> & Hx & Hpre).
    exists (a :: pre), post. repeat split; trivial.
    intros y [<- | Hy]; auto.
Qed.

(** The scan of [findWinningMove] finds the lowest completing cell. *)
Lemma find_completing p b :
  match find (fun i => checkWinner p (set i (Mark p) b)) (emptyIndices b) with
  | Some i => lowest (completes p b) i
  | None => forall j, completes p b j = false
  end.
Proof.
  destruct (find _ _) as [i|] eqn:E.
  - apply find_first in E. destruct E as (pre & post & Hl & Hi & Hpre).
    assert (get b i = Null) as Hnull
        by (apply in_emptyIndices; rewrite Hl; apply in_elt).
    split.
    + unfold completes. now rewrite Hnull, Hi.
    + intros j Hj. unfold completes.
      destruct (cell_eqb (get b j) Null) eqn:Ej; trivial. simpl.
      apply cell_eqb_eq, in_emptyIndices in Ej.
      destruct (emptyFrom_ascending _ _ _ _ _ Hl) as [_ Hpost].
      rewrite Hl in Ej. apply in_app_or in Ej.
      destruct Ej as [Ej | [<- | Ej]]; auto; [lia|].
      apply Hpost in Ej. lia.
  - intros j. unfold completes.
    destruct (cell_eqb (get b j) Null) eqn:Ej; trivial. simpl.
    apply cell_eqb_eq, in_emptyIndices in Ej.
    exact (find_none _ _ E j Ej).
Qed.

Lemma lowest_unique f i j : lowest f i -> lowest f j -> i = j.
Proof.
  intros [Hi Hbelow] [Hj Hbelow'].
  destruct (Nat.lt_trichotomy i j) as [H | [H | H]]; trivial.
  - rewrite (Hbelow' i H) in Hi. discriminate.
  - rewrite (Hbelow j H) in Hj. discriminate.
Qed.

Lemma findWinningMove_lowest p b i :
  lowest (completes p b) i -> findWinningMove p b = (Z.of_nat i, b).
Proof.
  intros Hi. rewrite findWinningMove_find.
  pose proof (find_completing p b) as H.
  destruct (find _ _) as [k|].
  - now rewrite (lowest_unique _ _ _ H Hi).
  - destruct Hi as [Hi _]. rewrite H in Hi. discriminate.
Qed.

Lemma findWinningMove_none p b :
  (forall j, completes p b j = false) -> findWinningMove p b = ((-1)%Z, b).
Proof.
  intros Hnone. rewrite findWinningMove_find.
  pose proof (find_completing p b) as H.
  destruct (find _ _) as [k|]; trivial.
  destruct H as [H _]. rewrite Hnone in H. discriminate.
Qed.

Lemma with_board_same s : with_board (board s) s = s.
Proof. now destruct s. Qed.

(** C4.  The move the computer selects on the board of [s], whatever the
    difficulty, the random-move counter and the random draw [rnd]:
    - if an empty cell completes a line of ['O'], the lowest such cell,
      and the counter is not touched;
    - else, if an empty cell completes a line of ['X'], the lowest such
      cell, and the counter is not touched;
    - only when there is neither, what the difficulty policy selects.
    In an active game [computerMove] then plays the selected cell. *)
Theorem chooseMove_priority (rnd : nat) (s : TicTacToe) :
  (forall i,
      lowest (completes PlayerO (board s)) i ->
      chooseMove rnd s = (Some i, s)
      /\ (gameActive s = true ->
          computerMove rnd s = makeMove (Some i) PlayerO s))
  /\ (forall i,
         (forall j, completes PlayerO (board s) j = false) ->
         lowest (completes PlayerX (board s)) i ->
         chooseMove rnd s = (Some i, s)
         /\ (gameActive s = true ->
             computerMove rnd s = makeMove (Some i) PlayerO s))
  /\ ((forall j, completes PlayerO (board s) j = false) ->
      (forall j, completes PlayerX (board s) j = false) ->
      chooseMove rnd s = difficultyPolicy rnd (emptyIndices (board s)) s).
Proof.
  assert (forall i, chooseMove rnd s = (Some i, s) ->
                    gameActive s = true ->
                    computerMove rnd s = makeMove (Some i) PlayerO s) as Hplay.
  { intros i E Ha. unfold computerMove. now rewrite Ha, E. }
  split; [|split].
  - intros i Hi.
    enough (chooseMove rnd s = (Some i, s)) by auto.
    unfold chooseMove. rewrite (findWinningMove_lowest _ _ _ Hi).
    destruct (Z.eqb_spec (Z.of_nat i) (-1)) as [|_]; [lia|]. simpl.
    now rewrite Nat2Z.id, with_board_same.
  - intros i HO Hi.
    enough (chooseMove rnd s = (Some i, s)) by auto.
    unfold chooseMove. rewrite (findWinningMove_none _ _ HO). simpl.
    rewrite (findWinningMove_lowest _ _ _ Hi).
    destruct (Z.eqb_spec (Z.of_nat i) (-1)) as [|_]; [lia|]. simpl.
    rewrite (findWinningMove_lowest _ _ _ Hi).
    now rewrite Nat2Z.id, !with_board_same.
  - intros HO HX.
    unfold chooseMove. rewrite (findWinningMove_none _ _ HO). simpl.
    rewrite (findWinningMove_none _ _ HX). simpl.
    now rewrite !with_board_same.
Qed.

(** The win is taken although the human mark threatens at cell 5. *)
Lemma chooseMove_priority_witness :
  let s := with_board [Mark PlayerO; Mark PlayerO; Null;
                       Mark PlayerX; Mark PlayerX; Null;
                       Null; Null; Null] newGame in
  chooseMove 4 s = (Some 2, s)
  /\ (gameActive s = true -> computerMove 4 s = makeMove (Some 2) PlayerO s).
Proof.
  intros s. apply (proj1 (chooseMove_priority 4 s) 2).
  split; [reflexivity|].
  intros [|[|j]] Hj; [reflexivity | reflexivity | lia].
Defined.

(* ------------------------------------------------------------------ *)
(** ** The selection loops of minimax *)

Lemma selectMax_spec moves : forall i bestScore bestMove,
  (selectMax moves i bestScore bestMove = bestMove
   /\ forall m, In m moves -> bound_ltb bestScore (Finite (mv_score m)) = false)
  \/ exists k best,
      selectMax moves i bestScore bestMove = Some (i + k)
      /\ nth_error moves k = Some best
      /\ bound_ltb bestScore (Finite (mv_score best)) = true
      /\ (forall j mj, nth_error moves j = Some mj ->
                       (mv_score mj <= mv_score best)%Z)
      /\ (forall j mj, j < k -> nth_error moves j = Some mj ->
                       (mv_score mj < mv_score best)%Z).
Proof.
  induction moves as [|m rest IH]; intros i bestScore bestMove;
    cbn [selectMax selectMin].
  - left. split; [trivial | intros m []].
  - destruct (bound_ltb bestScore (Finite (mv_score m))) eqn:E.
    + right.
      destruct (IH (S i) (Finite (mv_score m)) (Some i))
        as [[-> Hrest] | (k & best & -> & Hk & Hlt & Hmax & Hfirst)].
      * exists 0, m. rewrite Nat.add_0_r. repeat split; trivial.
        -- intros [|j] mj Hj; simpl in Hj; [injection Hj as <-; lia|].
           apply nth_error_In, Hrest in Hj. simpl in Hj.
           now apply Z.ltb_ge in Hj.
        -- intros j mj Hj. lia.
      * exists (S k), best. simpl in Hlt. apply Z.ltb_lt in Hlt.
        repeat split; trivial.
        -- f_equal. lia.
        -- destruct bestScore as [|z|]; simpl in *; trivial; try discriminate.
           apply Z.ltb_lt in E. apply Z.ltb_lt. lia.
        -- intros [|j] mj Hj; simpl in Hj; [injection Hj as <-; lia|].
           eauto.
        -- intros [|j] mj Hlt' Hj; simpl in Hj; [injection Hj as <-; lia|].
           apply (Hfirst j); trivial. lia.
    + destruct (IH (S i) bestScore bestMove)
        as [[-> Hrest] | (k & best & -> & Hk & Hlt & Hmax & Hfirst)].
      * left. split; trivial. intros m' [<- | Hm']; auto.
      * right. exists (S k), best.
        assert (mv_score m < mv_score best)%Z as Hm.
        { destruct bestScore as [|z|]; simpl in *; try discriminate.
          apply Z.ltb_ge in E. apply Z.ltb_lt in Hlt. lia. }
        repeat split; trivial.
        -- f_equal. lia.
        -- intros [|j] mj Hj; simpl in Hj; [injection Hj as <-; lia|].
           eauto.
        -- intros [|j] mj Hlt' Hj; simpl in Hj; [injection Hj as <-; lia|].
           apply (Hfirst j); trivial. lia.
Qed.

Lemma selectMin_spec moves : forall i bestScore bestMove,
  (selectMin moves i bestScore bestMove = bestMove
   /\ forall m, In m moves -> bound_ltb (Finite (mv_score m)) bestScore = false)
  \/ exists k best,
      selectMin moves i bestScore bestMove = Some (i + k)
      /\ nth_error moves k = Some best
      /\ bound_ltb (Finite (mv_score best)) bestScore = true
      /\ (forall j mj, nth_error moves j = Some mj ->
                       (mv_score best <= mv_score mj)%Z)
      /\ (forall j mj, j < k -> nth_error moves j = Some mj ->
                       (mv_score best < mv_score mj)%Z).
Proof.
  induction moves as [|m rest IH]; intros i bestScore bestMove;
    cbn [selectMax selectMin].
  - left. split; [trivial | intros m []].
  - destruct (bound_ltb (Finite (mv_score m)) bestScore) eqn:E.
    + right.
      destruct (IH (S i) (Finite (mv_score m)) (Some i))
        as [[-> Hrest] | (k & best & -> & Hk & Hlt & Hmin & Hfirst)].
      * exists 0, m. rewrite Nat.add_0_r. repeat split; trivial.
        -- intros [|j] mj Hj; simpl in Hj; [injection Hj as <-; lia|].
           apply nth_error_In, Hrest in Hj. simpl in Hj.
           now apply Z.ltb_ge in Hj.
        -- intros j mj Hj. lia.
      * exists (S k), best. simpl in Hlt. apply Z.ltb_lt in Hlt.
        repeat split; trivial.
        -- f_equal. lia.
        -- destruct bestScore as [|z|]; simpl in *; trivial; try discriminate.
           apply Z.ltb_lt in E. apply Z.ltb_lt. lia.
        -- intros [|j] mj Hj; simpl in Hj; [injection Hj as <-; lia|].
           eauto.
        -- intros [|j] mj Hlt' Hj; simpl in Hj; [injection Hj as <-; lia|].
           apply (Hfirst j); trivial. lia.
    + destruct (IH (S i) bestScore bestMove)
        as [[-> Hrest] | (k & best & -> & Hk & Hlt & Hmin & Hfirst)].
      * left. split; trivial. intros m' [<- | Hm']; auto.
      * right. exists (S k), best.
        assert (mv_score best < mv_score m)%Z as Hm.
        { destruct bestScore as [|z|]; simpl in *; try discriminate.
          apply Z.ltb_ge in E. apply Z.ltb_lt in Hlt. lia. }
        repeat split; trivial.
        -- f_equal. lia.
        -- intros [|j] mj Hj; simpl in Hj; [injection Hj as <-; lia|].
           eauto.
        -- intros [|j] mj Hlt' Hj; simpl in Hj; [injection Hj as <-; lia|].
           apply (Hfirst j); trivial. lia.
Qed.

(** [selectBest] returns the first of the moves with the best score. *)
Lemma selectBest_spec p moves :
  moves <> [] ->
  exists k best,
    selectBest p moves = Some best
    /\ nth_error moves k = Some best
    /\ (forall j mj, nth_error moves j = Some mj ->
                     ~ betterFor p (mv_score mj) (mv_score best))
    /\ (forall j mj, j < k -> nth_error moves j = Some mj ->
                     betterFor p (mv_score best) (mv_score mj)).
Proof.
  intros Hne. unfold selectBest. destruct p.
  - destruct (selectMin_spec moves 0 PosInfinity None)
      as [[_ Hnone] | (k & best & -> & Hk & _ & Hmin & Hfirst)].
    + destruct moves as [|m rest]; [congruence|].
      specialize (Hnone m (or_introl eq_refl)). discriminate.
    + simpl. exists k, best. rewrite Hk. repeat split; trivial.
      intros j mj Hj. specialize (Hmin j mj Hj). simpl. lia.
  - destruct (selectMax_spec moves 0 NegInfinity None)
      as [[_ Hnone] | (k & best & -> & Hk & _ & Hmax & Hfirst)].
    + destruct moves as [|m rest]; [congruence|].
      specialize (Hnone m (or_introl eq_refl)). discriminate.
    + simpl. exists k, best. rewrite Hk. repeat split; trivial.
      intros j mj Hj. specialize (Hmax j mj Hj). simpl. lia.
Qed.

(* ------------------------------------------------------------------ *)
(** ** minimax returns, and gives the board back *)

Lemma emptyFrom_nil_full k b : emptyFrom k b = [] <-> boardFull b = true.
Proof.
  revert k. induction b as [|c t IH]; intros k; simpl; [tauto|].
  destruct (cell_eqb c Null); simpl.
  - split; discriminate.
  - apply IH.
Qed.

Lemma emptyIndices_nil_full b : emptyIndices b = [] <-> boardFull b = true.
Proof. apply emptyFrom_nil_full. Qed.

(** The loop over the empty cells, when every recursive call returns and
    gives its board back. *)
Lemma evaluateMoves_map search p candidates b :
  (forall i, In i candidates -> get b i = Null) ->
  (forall i, In i candidates ->
             exists r, search (set i (Mark p) b) = Some (r, set i (Mark p) b)) ->
  evaluateMoves search p candidates b
  = Some (map (fun i => ScoredMove (Some i) (scoreAfter search p b i))
              candidates, b).
Proof.
  induction candidates as [|i rest IH]; intros Hnull Hsearch; simpl; trivial.
  destruct (Hsearch i (or_introl eq_refl)) as [r Hr].
  unfold scoreAfter at 1. rewrite Hr.
  rewrite set_restore by (apply Hnull; now left).
  rewrite IH; trivial; intros j Hj; [apply Hnull | apply Hsearch]; now right.
Qed.

(** One step of the recursion. *)
Lemma minimaxFuel_S fuel b p :
  minimaxFuel (S fuel) b p =
  if checkWinner PlayerX b then Some (ScoredMove None (-10)%Z, b)
  else if checkWinner PlayerO b then Some (ScoredMove None 10%Z, b)
  else if List.length (emptyIndices b) =? 0 then Some (ScoredMove None 0%Z, b)
  else
    match evaluateMoves (fun b' => minimaxFuel fuel b' (other p)) p
                        (emptyIndices b) b with
    | None => None
    | Some (moves, b) =>
        match selectBest p moves with
        | Some best => Some (best, b)
        | None => None
        end
    end.
Proof. reflexivity. Qed.

(** With one unit of fuel more than there are empty cells [minimax]
    returns a move, and the board is the one it was given. *)
Lemma minimaxFuel_total n : forall b p,
  List.length (emptyIndices b) = n ->
  exists r, minimaxFuel (S n) b p = Some (r, b).
Proof.
  induction n as [|n IH]; intros b p Hn; rewrite minimaxFuel_S;
    (destruct (checkWinner PlayerX b); [eauto|]);
    (destruct (checkWinner PlayerO b); [eauto|]);
    rewrite Hn; cbn [Nat.eqb]; [eauto|].
  set (search := fun b' => minimaxFuel (S n) b' (other p)).
  rewrite evaluateMoves_map.
  - destruct (selectBest_spec p
                (map (fun i => ScoredMove (Some i) (scoreAfter search p b i))
                     (emptyIndices b))) as (k & best & -> & _).
    + destruct (emptyIndices b); [discriminate Hn | discriminate].
    + eauto.
  - intros i. apply in_emptyIndices.
  - intros i Hi. apply IH. apply in_emptyIndices in Hi.
    pose proof (length_emptyIndices_set i p b Hi). lia.
Qed.

Lemma minimax_total b p : exists r, minimax b p = Some (r, b).
Proof. now apply minimaxFuel_total. Qed.

Lemma minimax_board b p r b' : minimax b p = Some (r, b') -> b' = b.
Proof.
  destruct (minimax_total b p) as [r' E]. rewrite E. congruence.
Qed.

(** More fuel than that changes nothing: [minimax] is the value of every
    run of [minimaxFuel] that has enough fuel. *)
Lemma minimaxFuel_enough fuel : forall b p,
  List.length (emptyIndices b) < fuel -> minimaxFuel fuel b p = minimax b p.
Proof.
  induction fuel as [|fuel IH]; intros b p Hfuel; [lia|].
  unfold minimax. rewrite !minimaxFuel_S.
  destruct (checkWinner PlayerX b); trivial.
  destruct (checkWinner PlayerO b); trivial.
  destruct (List.length (emptyIndices b)) as [|n] eqn:Hn; trivial.
  cbn [Nat.eqb].
  assert (forall i, In i (emptyIndices b) ->
            minimaxFuel fuel (set i (Mark p) b) (other p)
            = minimax (set i (Mark p) b) (other p)
            /\ minimaxFuel (S n) (set i (Mark p) b) (other p)
               = minimax (set i (Mark p) b) (other p)) as Hsame.
  { intros i Hi. apply in_emptyIndices in Hi.
    pose proof (length_emptyIndices_set i p b Hi) as Hlen.
    split; [apply IH; lia|]. unfold minimax. f_equal. lia. }
  rewrite !evaluateMoves_map;
    try (intros i; apply in_emptyIndices);
    try (intros i Hi; destruct (Hsame i Hi) as [E1 E2];
         rewrite ?E1, ?E2; apply minimax_total).
  rewrite (map_ext_in _
             (fun i => ScoredMove (Some i)
                         (scoreAfter
                            (fun b' => minimaxFuel (S n) b' (other p)) p b i)));
    trivial.
  intros i Hi. destruct (Hsame i Hi) as [E1 E2].
  unfold scoreAfter. now rewrite E1, E2.
Qed.

(* ------------------------------------------------------------------ *)
(** ** What minimax returns *)

(** On a board that is not terminal every empty cell is scored by the
    recursive call for the other mark, which is [childScore]. *)
Lemma search_childScore n b p i :
  List.length (emptyIndices b) = S n ->
  get b i = Null ->
  exists r,
    minimaxFuel (S n) (set i (Mark p) b) (other p)
    = Some (r, set i (Mark p) b)
    /\ childScore p b i = Some (mv_score r)
    /\ scoreAfter (fun b' => minimaxFuel (S n) b' (other p)) p b i
       = mv_score r.
Proof.
  intros Hn Hi.
  pose proof (length_emptyIndices_set i p b Hi) as Hlen.
  assert (List.length (emptyIndices (set i (Mark p) b)) = n) as Hn' by lia.
  destruct (minimaxFuel_total n (set i (Mark p) b) (other p) Hn') as [r Hr].
  exists r. unfold childScore, scoreAfter, minimax.
  now rewrite Hn', Hr.
Qed.

(** The search on a board that is not terminal: the first of the empty
    cells with the best score for the player to move. *)
Lemma minimax_search (b : board_t) (p : player) :
  checkWinner PlayerX b = false -> checkWinner PlayerO b = false ->
  boardFull b = false ->
  exists i score,
    minimax b p = Some (ScoredMove (Some i) score, b)
    /\ get b i = Null
    /\ childScore p b i = Some score
    /\ forall j, get b j = Null ->
         exists sj,
           childScore p b j = Some sj
           /\ ~ betterFor p sj score
           /\ (j < i -> betterFor p score sj).
Proof.
  unfold minimax. rewrite minimaxFuel_S.
  intros -> -> Hfull.
  destruct (List.length (emptyIndices b)) as [|n] eqn:Hn.
  { apply length_zero_iff_nil, emptyIndices_nil_full in Hn. congruence. }
  cbn [Nat.eqb].
  set (search := fun b' => minimaxFuel (S n) b' (other p)).
  set (scored := fun i => ScoredMove (Some i) (scoreAfter search p b i)).
  rewrite evaluateMoves_map;
    [| intros i; apply in_emptyIndices
     | intros i Hi; apply in_emptyIndices in Hi;
       destruct (search_childScore n b p i Hn Hi) as (r & Hr & _); eauto].
  fold scored.
  destruct (selectBest_spec p (map scored (emptyIndices b)))
    as (k & best & -> & Hk & Hopt & Hfirst).
  { destruct (emptyIndices b); discriminate. }
  rewrite nth_error_map in Hk.
  destruct (nth_error (emptyIndices b) k) as [i|] eqn:Ek; [|discriminate].
  injection Hk as <-.
  assert (get b i = Null) as Hi
      by (apply in_emptyIndices; eapply nth_error_In; eauto).
  destruct (search_childScore n b p i Hn Hi) as (r & _ & Hchild & Hscore).
  fold search in Hscore.
  exists i, (mv_score r). unfold scored at 1. rewrite Hscore.
  repeat split; trivial.
  intros j Hj.
  destruct (search_childScore n b p j Hn Hj) as (rj & _ & Hchildj & Hscorej).
  fold search in Hscorej.
  exists (mv_score rj). split; trivial.
  assert (forall kj, nth_error (emptyIndices b) kj = Some j ->
                     nth_error (map scored (emptyIndices b)) kj
                     = Some (scored j)) as Hmoves
      by (intros kj E; now rewrite nth_error_map, E).
  assert (mv_score (scored j) = mv_score rj) as Hsj by exact Hscorej.
  assert (mv_score (scored i) = mv_score r) as Hsi by exact Hscore.
  rewrite <- Hsj, <- Hsi. split.
  - apply in_emptyIndices, In_nth_error in Hj. destruct Hj as [kj Ekj].
    eapply Hopt. eauto.
  - intros Hlt.
    destruct (nth_error_split _ _ Ek) as (pre & post & Hl & Hlen).
    destruct (emptyFrom_ascending _ _ _ _ _ Hl) as [_ Hpost].
    apply in_emptyIndices in Hj. rewrite Hl in Hj.
    apply in_app_or in Hj. destruct Hj as [Hj | [-> | Hj]];
      [| lia | apply Hpost in Hj; lia].
    apply In_nth_error in Hj. destruct Hj as [kj Ekj].
    assert (kj < k) as Hkj
        by (rewrite <- Hlen; apply nth_error_Some; congruence).
    apply (Hfirst kj); trivial. apply Hmoves.
    rewrite Hl, nth_error_app1; trivial. lia.
Qed.

(** The index [minimax] returns is an empty cell. *)
Lemma minimax_index b p r b' i :
  minimax b p = Some (r, b') -> mv_index r = Some i -> get b i = Null.
Proof.
  intros H Hi.
  destruct (checkWinner PlayerX b) eqn:HX;
    [|destruct (checkWinner PlayerO b) eqn:HO;
      [|destruct (boardFull b) eqn:Hfull]].
  4: { destruct (minimax_search b p HX HO Hfull) as (i' & score & E & Hnull & _).
       rewrite E in H. injection H as <- _. simpl in Hi. congruence. }
  all: unfold minimax in H; rewrite minimaxFuel_S, HX in H;
    try rewrite HO in H;
    try (apply emptyIndices_nil_full in Hfull; rewrite Hfull in H; simpl in H);
    injection H as <- _; discriminate.
Qed.

(** C2.  What [minimax(board, player)] returns, the tests being made in
    this order:
    - score -10 and no index when ['X'] has a completed line;
    - else score +10 and no index when ['O'] has a completed line;
    - else score 0 and no index when the board is full;
    - else, on a board that is not terminal, an empty cell [i] with the
      score the recursive call gives the board on which the player has
      taken [i] (no depth discount).  No empty cell has a better score
      for the player to move (['O'] takes the highest, ['X'] the lowest),
      and every empty cell of lower index has a strictly worse one: among
      equal scores the cell met first, in ascending order, is returned.
    In every case the call returns, and the board it mutated is as it
    was. *)
Theorem minimax_spec (b : board_t) (p : player) :
  (checkWinner PlayerX b = true ->
   minimax b p = Some (ScoredMove None (-10)%Z, b))
  /\ (checkWinner PlayerX b = false -> checkWinner PlayerO b = true ->
      minimax b p = Some (ScoredMove None 10%Z, b))
  /\ (checkWinner PlayerX b = false -> checkWinner PlayerO b = false ->
      boardFull b = true ->
      minimax b p = Some (ScoredMove None 0%Z, b))
  /\ (checkWinner PlayerX b = false -> checkWinner PlayerO b = false ->
      boardFull b = false ->
      exists i score,
        minimax b p = Some (ScoredMove (Some i) score, b)
        /\ get b i = Null
        /\ childScore p b i = Some score
        /\ forall j, get b j = Null ->
             exists sj,
               childScore p b j = Some sj
               /\ ~ betterFor p sj score
               /\ (j < i -> betterFor p score sj)).
Proof.
  unfold minimax. rewrite minimaxFuel_S.
  split; [|split; [|split]].
  - now intros ->.
  - now intros -> ->.
  - intros -> -> Hfull. apply emptyIndices_nil_full in Hfull.
    now rewrite Hfull.
  - apply minimax_search.
Qed.

(** ['O'] to move with a win at cell 5 and a threat of ['X'] at cell 2. *)
Lemma minimax_spec_witness :
  let b := [Mark PlayerX; Mark PlayerX; Null;
            Mark PlayerO; Mark PlayerO; Null;
            Null; Null; Null] in
  exists i score,
    minimax b PlayerO = Some (ScoredMove (Some i) score, b)
    /\ get b i = Null
    /\ childScore PlayerO b i = Some score
    /\ forall j, get b j = Null ->
         exists sj,
           childScore PlayerO b j = Some sj
           /\ ~ betterFor PlayerO sj score
           /\ (j < i -> betterFor PlayerO score sj).
Proof.
  intros b.
  apply (proj2 (proj2 (proj2 (minimax_spec b PlayerO)))); reflexivity.
Defined.

(* ------------------------------------------------------------------ *)
(** ** Nine cells *)

Lemma Forall_removelast {A : Type} (P : A -> Prop) (l : list A) :
  Forall P l -> Forall P (removelast l).
Proof.
  induction 1 as [|x l Hx Hl IH]; simpl; trivial.
  destruct l; auto.
Qed.

Lemma makeMove_nineCells index p s :
  (forall i, index = Some i -> get (board s) i = Null) ->
  nineCells s -> nineCells (makeMove index p s).
Proof.
  intros Hindex (Hb & Hlog & Hst & _). unfold nineCells.
  destruct (makeMove_log index p s) as (-> & -> & ->).
  rewrite makeMove_board.
  assert (List.length (write index (Mark p) (board s)) = 9) as Hlen.
  { destruct index as [i|]; simpl; trivial.
    rewrite length_set; trivial. apply get_Null_in_range. auto. }
  repeat split; trivial; apply Forall_app; split; trivial;
    repeat constructor; exact Hlen.
Qed.

(** The cell the computer selects is an empty one, and the trial writes
    are undone. *)
Lemma chooseMove_move rnd s move s' :
  chooseMove rnd s = (move, s') ->
  (forall i, move = Some i -> get (board s) i = Null)
  /\ exists n, s' = with_aiRandomMovesUsed n s.
Proof.
  assert (forall p z b',
             findWinningMove p (board s) = (z, b') ->
             b' = board s
             /\ (z <> (-1)%Z -> get (board s) (Z.to_nat z) = Null)) as Hfind.
  { intros p z b'. rewrite findWinningMove_find. intros [= <- <-].
    split; trivial. pose proof (find_completing p (board s)) as H.
    destruct (find _ _) as [k|]; [|congruence]. intros _.
    destruct H as [H _]. unfold completes in H.
    apply andb_prop in H. destruct H as [H _].
    rewrite Nat2Z.id. now apply cell_eqb_eq. }
  unfold chooseMove.
  destruct (findWinningMove PlayerO (board s)) as [aiWinMove b1] eqn:E1.
  destruct (Hfind _ _ _ E1) as [-> Hwin].
  rewrite with_board_same.
  destruct (Z.eqb_spec aiWinMove (-1)) as [_|Hne]; simpl.
  2: { intros [= <- <-]. split.
       - intros i [= <-]. auto.
       - exists (aiRandomMovesUsed s). now destruct s. }
  destruct (findWinningMove PlayerX (board s)) as [humanWinMove b2] eqn:E2.
  destruct (Hfind _ _ _ E2) as [-> Hblock].
  rewrite with_board_same.
  destruct (Z.eqb_spec humanWinMove (-1)) as [_|Hne]; simpl.
  2: { rewrite E2, with_board_same. intros [= <- <-]. split.
       - intros i [= <-]. auto.
       - exists (aiRandomMovesUsed s). now destruct s. }
  unfold difficultyPolicy.
  assert (s = with_aiRandomMovesUsed (aiRandomMovesUsed s) s) as Hsame
      by (now destruct s).
  destruct (String.eqb (difficulty s) "hard");
    [|destruct (String.eqb (difficulty s) "medium");
      [destruct (aiRandomMovesUsed s <? 1)
      |destruct (aiRandomMovesUsed s <? 2)]];
    try (destruct (minimax (board s) PlayerO) as [[best b]|] eqn:Em;
         [pose proof (minimax_board _ _ _ _ Em); subst b;
          rewrite with_board_same|]);
    intros [= <- <-]; (split; [|eauto]);
    intros i Hi;
    first [ discriminate
          | solve [eapply minimax_index; eauto]
          | apply in_emptyIndices; eapply nth_error_In; eauto ].
Qed.

Lemma computerMove_nineCells rnd s :
  nineCells s -> nineCells (computerMove rnd s).
Proof.
  intros H. unfold computerMove.
  destruct (negb (gameActive s)); trivial.
  destruct (chooseMove rnd s) as [move s'] eqn:E.
  destruct (chooseMove_move _ _ _ _ E) as [Hmove [n ->]].
  apply makeMove_nineCells; trivial.
Qed.

Lemma displayReviewMove_nineCells s :
  nineCells s -> nineCells (displayReviewMove s).
Proof.
  intros (Hb & Hlog & Hst & Hq). unfold displayReviewMove, nineCells.
  destruct (_ && _); [destruct (nth_error _ _) as [move|] eqn:E|];
    status_frame; simpl; repeat split; trivial.
  apply nth_error_In in E. rewrite Forall_forall in Hlog. auto.
Qed.

Lemma moveBackward_nineCells s : nineCells s -> nineCells (moveBackward s).
Proof.
  intros H. unfold moveBackward.
  destruct (reviewMode s).
  { destruct (0 <? reviewIndex s)%Z; trivial.
    apply displayReviewMove_nineCells. exact H. }
  destruct H as (Hb & Hlog & Hst & Hq).
  destruct (pop_cases (moveHistory s)) as [[_ ->] | (rest & e & Hit & ->)];
    [repeat split; trivial|].
  rewrite Hit in Hst. apply Forall_app in Hst. destruct Hst as [Hrest He].
  apply Forall_removelast in Hlog.
  assert (Forall (fun m => List.length (m_board m) = 9)
                 (Queue.items (redoHistory s) ++ [e])) as Hq'
      by (apply Forall_app; auto).
  status_frame. unfold nineCells.
  cbn [moveHistory with_allMoves with_redoHistory with_moveHistory].
  destruct (Stack.isEmpty (Stack.mk rest)) eqn:Eempty; simpl;
    [repeat split; trivial|].
  destruct (Stack.peek (Stack.mk rest)) as [prevMove|] eqn:Epeek; simpl;
    repeat split; trivial.
  unfold Stack.peek in Epeek. rewrite Eempty in Epeek. simpl in Epeek.
  apply nth_error_In in Epeek. rewrite Forall_forall in Hrest. auto.
Qed.

Lemma moveForward_nineCells s : nineCells s -> nineCells (moveForward s).
Proof.
  intros H. unfold moveForward.
  destruct (reviewMode s).
  { destruct (_ <? _)%Z; trivial.
    apply displayReviewMove_nineCells. exact H. }
  destruct H as (Hb & Hlog & Hst & Hq).
  unfold Queue.dequeue, Queue.isEmpty.
  destruct (Queue.items (redoHistory s)) as [|e rest] eqn:Eq; simpl.
  { repeat split; trivial. simpl. now rewrite Eq. }
  apply Forall_cons_iff in Hq. destruct Hq as [He Hrest].
  match goal with
  | |- context [if ?c then _ else _] => destruct c
  end; status_frame; unfold nineCells; simpl;
    (repeat split; trivial; apply Forall_app; auto).
Qed.

Lemma handle_nineCells e s : nineCells s -> nineCells (handle e s).
Proof.
  intros H. destruct e as [index|d| | | | |rnd]; simpl.
  - unfold handleCellClick.
    destruct (_ || _) eqn:Hguard; trivial.
    repeat (apply orb_false_elim in Hguard; destruct Hguard as [Hguard ?]).
    assert (nineCells (makeMove (Some (Z.to_nat index)) PlayerX s)) as H'.
    { apply makeMove_nineCells; trivial. intros i [= <-].
      match goal with H : negb (cell_eqb _ Null) = false |- _ =>
        apply negb_false_iff, cell_eqb_eq in H; unfold getZ in H;
        destruct (index <? 0)%Z; [discriminate | exact H] end. }
    destruct (_ && _); trivial.
  - unfold setDifficulty, resetGame, nineCells. status_frame. simpl. auto.
  - unfold resetGame, nineCells. status_frame. simpl. auto.
  - now apply moveBackward_nineCells.
  - now apply moveForward_nineCells.
  - unfold startReview. destruct (_ =? 0); [exact H|].
    destruct H as (Hb & Hlog & Hst & Hq).
    unfold nineCells. status_frame. simpl. auto.
  - unfold runPendingMove. destruct (pendingMoves s); trivial.
    apply computerMove_nineCells. exact H.
Qed.

(** X29.  In every state the page can reach, the board and every
    snapshot recorded in the full log, the undo stack and the redo queue
    have exactly nine cells. *)
Lemma reachable_nineCells s : reachable s -> nineCells s.
Proof.
  induction 1 as [|e s _ IH].
  - repeat split; constructor.
  - now apply handle_nineCells.
Qed.

(* ------------------------------------------------------------------ *)
(** ** The hard opponent does not lose *)

Lemma explore_unfold depth s :
  explore depth s
  = notLost s && hardPlay s && (pendingMoves s =? 0)
    && (if gameActive s then
          match depth with
          | 0 => false
          | S depth' =>
              forallb (fun i =>
                         if cell_eqb (get (board s) i) Null
                         then
                           let clicked := handleCellClick (Z.of_nat i) s in
                           notLost clicked
                           && ((pendingMoves clicked =? 0)
                               || player_eqb (currentPlayer clicked) PlayerO)
                           && explore depth' (runPendingMove 0 clicked)
                         else true)
                      (seq 0 9)
          end
        else true).
Proof. now destruct depth. Qed.

(** On hard difficulty the random draw is not used. *)
Lemma computerMove_hard rnd s :
  String.eqb (difficulty s) "hard" = true ->
  computerMove rnd s = computerMove 0 s.
Proof.
  intros H. unfold computerMove, chooseMove.
  destruct (negb (gameActive s)); trivial.
  destruct (findWinningMove PlayerO (board s)) as [aiWinMove b1].
  destruct (negb (aiWinMove =? -1)%Z); trivial. simpl.
  destruct (findWinningMove PlayerX b1) as [humanWinMove b2].
  destruct (negb (humanWinMove =? -1)%Z); trivial. simpl.
  unfold difficultyPolicy. simpl. now rewrite H.
Qed.

Lemma runPendingMove_hard rnd s :
  String.eqb (difficulty s) "hard" = true ->
  runPendingMove rnd s = runPendingMove 0 s.
Proof.
  intros H. unfold runPendingMove.
  destruct (pendingMoves s); trivial. now apply computerMove_hard.
Qed.

Lemma makeMove_difficulty index p s :
  difficulty (makeMove index p s) = difficulty s.
Proof.
  unfold makeMove. simpl.
  destruct (checkWinner p _); [|destruct (boardFull _)];
    status_frame; reflexivity.
Qed.

Lemma handleCellClick_difficulty index s :
  difficulty (handleCellClick index s) = difficulty s.
Proof.
  unfold handleCellClick.
  destruct (_ || _); trivial.
  destruct (_ && _); simpl; now rewrite makeMove_difficulty.
Qed.

Lemma explore_notLost depth s : explore depth s = true -> notLost s = true.
Proof.
  rewrite explore_unfold. intros H.
  do 3 (apply andb_prop in H; destruct H as [H _]). exact H.
Qed.

Lemma inPlay_notLost s : inPlay s -> notLost s = true.
Proof.
  intros [[depth H] | [H _]]; trivial. now apply explore_notLost in H.
Qed.

(** A click or a timer leads from a state of plain play to another. *)
Lemma inPlay_step e s : isPlay e = true -> inPlay s -> inPlay (handle e s).
Proof.
  intros He [[depth H] | (Hsafe & Hturn & Hhard & depth & H)];
    destruct e as [index| | | | | |rnd]; try discriminate He; simpl.
  - (* a click between two turns *)
    pose proof H as Hs. rewrite explore_unfold in H.
    apply andb_prop in H. destruct H as [H Hnext].
    apply andb_prop in H. destruct H as [H Hpending].
    apply andb_prop in H. destruct H as [_ Hplay].
    unfold hardPlay in Hplay.
    apply andb_prop in Hplay. destruct Hplay as [Hplay Hhard].
    apply andb_prop in Hplay. destruct Hplay as [Hlen _].
    apply Nat.eqb_eq in Hlen.
    destruct (reviewMode s
              || negb (gameActive s)
              || negb (cell_eqb (getZ (board s) index) Null)
              || negb (player_eqb (currentPlayer s) PlayerX)) eqn:Hguard.
    { left. exists depth. unfold handleCellClick. now rewrite Hguard. }
    repeat (apply orb_false_elim in Hguard; destruct Hguard as [Hguard ?]).
    match goal with H : negb (gameActive s) = false |- _ =>
      apply negb_false_iff in H; rewrite H in Hnext end.
    match goal with H : negb (cell_eqb _ Null) = false |- _ =>
      apply negb_false_iff in H; rename H into Hcell end.
    destruct depth as [|depth]; [discriminate|].
    rewrite forallb_forall in Hnext.
    unfold getZ in Hcell.
    destruct (Z.ltb_spec index 0) as [|Hpos]; [discriminate|].
    assert (Z.to_nat index < 9) as Hrange.
    { rewrite <- Hlen. apply get_Null_in_range. now apply cell_eqb_eq. }
    specialize (Hnext (Z.to_nat index)).
    rewrite Hcell, Z2Nat.id in Hnext by trivial. cbv zeta in Hnext.
    assert (In (Z.to_nat index) (seq 0 9)) as Hin by (apply in_seq; lia).
    apply Hnext in Hin.
    apply andb_prop in Hin. destruct Hin as [Hin Hafter].
    apply andb_prop in Hin. destruct Hin as [Hsafe' Hwait].
    apply orb_prop in Hwait. destruct Hwait as [Hnone | Hturn'].
    + left. exists depth. apply Nat.eqb_eq in Hnone.
      unfold runPendingMove in Hafter. now rewrite Hnone in Hafter.
    + right. repeat split; trivial.
      * now apply player_eqb_eq.
      * now rewrite handleCellClick_difficulty.
      * now exists depth.
  - (* the timer between two turns: nothing is pending *)
    left. exists depth. pose proof H as Hs. rewrite explore_unfold in H.
    apply andb_prop in H. destruct H as [H _].
    apply andb_prop in H. destruct H as [_ Hpending].
    apply Nat.eqb_eq in Hpending.
    unfold runPendingMove. now rewrite Hpending.
  - (* a click while the computer's move is pending is refused *)
    right. unfold handleCellClick. rewrite Hturn. simpl.
    rewrite !orb_true_r. repeat split; trivial. now exists depth.
  - (* the computer's move *)
    left. exists depth. now rewrite runPendingMove_hard.
Qed.

Lemma inPlay_run events : forall s,
  forallb isPlay events = true -> inPlay s -> inPlay (run events s).
Proof.
  unfold run.
  induction events as [|e rest IH]; intros s He Hs; simpl; trivial.
  simpl in He. apply andb_prop in He. destruct He as [He Hrest].
  apply IH; trivial. now apply inPlay_step.
Qed.

(** C1.  A game on hard difficulty, the human player moving first: after
    any sequence of clicks (those on occupied cells, outside the board or
    out of turn are refused) and runs of the computer's deferred move,
    ['X'] has no completed line, and once the game is over the result
    announced is a win of ['O'] or a draw. *)
Theorem hard_never_loses (events : list event) :
  forallb isPlay events = true ->
  let s := run events hardGame in
  checkWinner PlayerX (board s) = false
  /\ (gameActive s = false ->
      statusText s = "O wins!" \/ statusText s = "It's a draw!").
Proof.
  intros He s.
  assert (notLost s = true) as H.
  { apply inPlay_notLost, inPlay_run; trivial.
    left. exists 5. vm_compute. reflexivity. }
  unfold notLost in H. apply andb_prop in H. destruct H as [HX Hover].
  split.
  - now apply negb_true_iff in HX.
  - intros Hactive. rewrite Hactive in Hover. simpl in Hover.
    apply orb_prop in Hover. destruct Hover as [E | E];
      apply String.eqb_eq in E; auto.
Qed.

(** A game the computer wins on the line 2-4-6; the third click comes
    before the timer and is refused. *)
Lemma hard_never_loses_witness :
  let s := run [CellClick 0; TimerFires 0; CellClick 1; CellClick 8;
                TimerFires 5; CellClick 3; TimerFires 1] hardGame in
  checkWinner PlayerX (board s) = false
  /\ (gameActive s = false ->
      statusText s = "O wins!" \/ statusText s = "It's a draw!").
Proof.
  apply hard_never_loses. reflexivity.
Defined.

(* ------------------------------------------------------------------ *)
(** ** Further properties: Stack and Queue *)

Lemma stack_eta {A : Type} (st : Stack.t A) : Stack.mk (Stack.items st) = st.
Proof. now destruct st. Qed.

Lemma queue_eta {A : Type} (q : Queue.t A) : Queue.mk (Queue.items q) = q.
Proof. now destruct q. Qed.

Lemma pushAll_items {A : Type} (xs : list A) : forall st,
  Stack.items (pushAll xs st) = Stack.items st ++ xs.
Proof.
  unfold pushAll.
  induction xs as [|x xs IH]; intros st; simpl.
  - now rewrite app_nil_r.
  - rewrite IH. simpl. now rewrite <- app_assoc.
Qed.

Lemma popN_items {A : Type} (xs : list A) : forall base,
  popN (List.length xs) (Stack.mk (base ++ xs))
  = (map Some (rev xs), Stack.mk base).
Proof.
  induction xs as [|x xs IH] using rev_ind; intros base.
  { simpl. now rewrite app_nil_r. }
  rewrite length_app, Nat.add_comm. cbn [List.length Nat.add popN].
  rewrite app_assoc.
  change (Stack.mk ((base ++ xs) ++ [x]))
    with (Stack.push x (Stack.mk (base ++ xs))).
  rewrite pop_push. simpl. rewrite IH, rev_app_distr. reflexivity.
Qed.

(** X1.  Last in, first out: after the elements of [xs] were pushed on a
    stack, as many pops return them in reverse order, newest first, and
    leave the stack as it was before the pushes. *)
Theorem stack_lifo {A : Type} (xs : list A) (st : Stack.t A) :
  popN (List.length xs) (pushAll xs st) = (map Some (rev xs), st).
Proof.
  rewrite <- (stack_eta (pushAll xs st)), pushAll_items, popN_items.
  now rewrite stack_eta.
Qed.

(** X2.  [peek] returns what [pop] would return and [pop] takes one
    element off; both return [null] exactly on the empty stack, which
    [pop] leaves as it is; and after [clear] the stack is empty. *)
Theorem stack_peek_pop {A : Type} (st : Stack.t A) :
  Stack.peek st = fst (Stack.pop st)
  /\ Stack.size (snd (Stack.pop st)) = Stack.size st - 1
  /\ (Stack.peek st = None <-> Stack.isEmpty st = true)
  /\ (Stack.isEmpty st = true <-> Stack.size st = 0)
  /\ (Stack.isEmpty st = true -> Stack.pop st = (None, st))
  /\ Stack.isEmpty (Stack.clear st) = true.
Proof.
  assert (Stack.isEmpty st = true <-> Stack.size st = 0) as Hempty.
  { unfold Stack.isEmpty, Stack.size.
    destruct (Stack.items st); simpl; split; congruence. }
  destruct (pop_cases st) as [[Hit ->] | (rest & e & Hit & ->)].
  - assert (Stack.isEmpty st = true) as E
        by (unfold Stack.isEmpty; now rewrite Hit).
    unfold Stack.peek, Stack.size. rewrite E. simpl. rewrite Hit.
    repeat split; trivial.
  - assert (Stack.isEmpty st = false) as E.
    { unfold Stack.isEmpty. rewrite Hit. now destruct rest. }
    unfold Stack.peek, Stack.size. rewrite E. simpl. rewrite Hit.
    rewrite length_app, nth_error_app2 by (simpl; lia). simpl.
    replace (_ - List.length rest) with 0 by lia. simpl.
    repeat split; trivial; try congruence; try lia.
Qed.

Lemma enqueueAll_items {A : Type} (xs : list A) : forall q,
  Queue.items (enqueueAll xs q) = Queue.items q ++ xs.
Proof.
  unfold enqueueAll.
  induction xs as [|x xs IH]; intros q; simpl.
  - now rewrite app_nil_r.
  - rewrite IH. simpl. now rewrite <- app_assoc.
Qed.

Lemma dequeueN_items {A : Type} (xs : list A) : forall rest,
  dequeueN (List.length xs) (Queue.mk (xs ++ rest))
  = (map Some xs, Queue.mk rest).
Proof.
  induction xs as [|x xs IH]; intros rest; simpl; trivial.
  unfold Queue.dequeue, Queue.isEmpty. simpl. now rewrite IH.
Qed.

(** X3.  First in, first out: after the elements of [xs] were enqueued,
    dequeuing the whole queue returns what it held before, then [xs], in
    the order of the enqueues, and leaves it empty. *)
Theorem queue_fifo {A : Type} (xs : list A) (q : Queue.t A) :
  dequeueN (Queue.size (enqueueAll xs q)) (enqueueAll xs q)
  = (map Some (Queue.items q ++ xs), Queue.empty).
Proof.
  unfold Queue.size. rewrite <- (queue_eta (enqueueAll xs q)) at 2.
  rewrite enqueueAll_items.
  rewrite <- (app_nil_r (Queue.items q ++ xs)) at 2.
  apply dequeueN_items.
Qed.

(** X4.  [front] returns what [dequeue] would return and [dequeue] takes
    one element off; both return [null] exactly on the empty queue,
    which [dequeue] leaves as it is; and after [clear] the queue is
    empty. *)
Theorem queue_front_dequeue {A : Type} (q : Queue.t A) :
  Queue.front q = fst (Queue.dequeue q)
  /\ Queue.size (snd (Queue.dequeue q)) = Queue.size q - 1
  /\ (Queue.front q = None <-> Queue.isEmpty q = true)
  /\ (Queue.isEmpty q = true <-> Queue.size q = 0)
  /\ (Queue.isEmpty q = true -> Queue.dequeue q = (None, q))
  /\ Queue.isEmpty (Queue.clear q) = true.
Proof.
  unfold Queue.front, Queue.dequeue, Queue.isEmpty, Queue.size.
  destruct (Queue.items q) as [|e rest] eqn:E; simpl; rewrite ?E; simpl;
    repeat split; intros; trivial; try discriminate; try lia.
Qed.

(* ------------------------------------------------------------------ *)
(** ** Further properties: the board, findWinningMove, minimax *)

(** X5.  [emptyIndices] lists exactly the indices of the [null] cells,
    each once, in ascending order. *)
Theorem emptyIndices_ascending (b : board_t) :
  (forall i, In i (emptyIndices b) <-> get b i = Null)
  /\ (forall k1 k2 i1 i2,
         k1 < k2 ->
         nth_error (emptyIndices b) k1 = Some i1 ->
         nth_error (emptyIndices b) k2 = Some i2 ->
         i1 < i2).
Proof.
  split; [apply in_emptyIndices|].
  intros k1 k2 i1 i2 Hk E1 E2.
  destruct (nth_error_split _ _ E2) as (pre & post & Hl & Hlen).
  destruct (emptyFrom_ascending _ _ _ _ _ Hl) as [Hpre _].
  apply Hpre. rewrite Hl, nth_error_app1 in E1 by lia.
  eapply nth_error_In; eauto.
Qed.

Lemma checkWinner_set_same p i b :
  checkWinner p b = true -> checkWinner p (set i (Mark p) b) = true.
Proof.
  unfold checkWinner. rewrite !existsb_exists.
  intros (pattern & Hin & Hall). exists pattern. split; trivial.
  rewrite forallb_forall in *. intros index Hindex.
  destruct (Nat.eq_dec i index) as [-> | Hne].
  - rewrite get_set_same. apply cell_eqb_refl.
  - rewrite get_set_other by trivial. auto.
Qed.

(** X6.  A mark written into the board, on whatever cell, keeps every
    completed line of its own mark and completes no line of the other
    mark: only the mover can win by a move. *)
Theorem checkWinner_after_mark (p : player) (i : nat) (b : board_t) :
  (checkWinner p b = true -> checkWinner p (set i (Mark p) b) = true)
  /\ (checkWinner (other p) b = false ->
      checkWinner (other p) (set i (Mark p) b) = false).
Proof.
  split; [apply checkWinner_set_same|].
  intros H. destruct (checkWinner (other p) (set i (Mark p) b)) eqn:E; trivial.
  apply checkWinner_set_other in E; [congruence | now destruct p].
Qed.

(** X7.  [findWinningMove(player)] leaves the board as it found it.  It
    returns -1 when no empty cell completes a line of the player, and
    otherwise the lowest empty cell that does. *)
Theorem findWinningMove_result (p : player) (b : board_t) :
  snd (findWinningMove p b) = b
  /\ ((fst (findWinningMove p b) = (-1)%Z
       /\ forall j, completes p b j = false)
      \/ exists i,
          fst (findWinningMove p b) = Z.of_nat i
          /\ lowest (completes p b) i).
Proof.
  rewrite findWinningMove_find. split; trivial.
  pose proof (find_completing p b) as H.
  destruct (find _ _) as [i|]; simpl; [right; eauto | left; auto].
Qed.

Lemma minimax_range n : forall b p,
  List.length (emptyIndices b) = n ->
  exists r,
    minimax b p = Some (r, b)
    /\ (mv_score r = (-10)%Z \/ mv_score r = 0%Z \/ mv_score r = 10%Z).
Proof.
  induction n as [|n IH]; intros b p Hn;
    destruct (checkWinner PlayerX b) eqn:HX;
    try (eexists; split;
         [unfold minimax; rewrite minimaxFuel_S, HX; reflexivity | simpl; auto]);
    destruct (checkWinner PlayerO b) eqn:HO;
    try (eexists; split;
         [unfold minimax; rewrite minimaxFuel_S, HX, HO; reflexivity
         | simpl; auto]).
  - eexists. split;
      [unfold minimax; rewrite minimaxFuel_S, HX, HO, Hn; reflexivity
      | simpl; auto].
  - assert (boardFull b = false) as Hfull.
    { destruct (boardFull b) eqn:E; trivial.
      apply emptyIndices_nil_full in E. rewrite E in Hn. discriminate. }
    destruct (minimax_search b p HX HO Hfull)
      as (i & score & -> & Hi & Hchild & _).
    eexists. split; [reflexivity|]. simpl.
    pose proof (length_emptyIndices_set i p b Hi) as Hlen.
    destruct (IH (set i (Mark p) b) (other p)) as (r & Hr & Hrange); [lia|].
    unfold childScore in Hchild. rewrite Hr in Hchild.
    injection Hchild as <-. exact Hrange.
Qed.

(** X8.  On every board [minimax] returns, gives the board back as it
    was, and its score is -10, 0 or 10. *)
Theorem minimax_score_range (b : board_t) (p : player) :
  exists r,
    minimax b p = Some (r, b)
    /\ (mv_score r = (-10)%Z \/ mv_score r = 0%Z \/ mv_score r = 10%Z).
Proof.
  now apply (minimax_range (List.length (emptyIndices b))).
Qed.

Lemma not_full_of_null b i : get b i = Null -> boardFull b = false.
Proof.
  intros H. destruct (boardFull b) eqn:E; trivial.
  apply emptyIndices_nil_full in E. apply in_emptyIndices in H.
  rewrite E in H. destruct H.
Qed.

(** X9.  [minimax] sees an immediate win: on a board without a completed
    line on which an empty cell completes a line of the player to move,
    the score is the win of that player, +10 for ['O'] and -10 for
    ['X']. *)
Theorem minimax_immediate_win (b : board_t) (p : player) (i : nat) :
  checkWinner PlayerX b = false ->
  checkWinner PlayerO b = false ->
  completes p b i = true ->
  exists r,
    minimax b p = Some (r, b)
    /\ mv_score r = match p with PlayerO => 10%Z | PlayerX => (-10)%Z end.
Proof.
  intros HX HO Hi. unfold completes in Hi.
  apply andb_prop in Hi. destruct Hi as [Hnull Hwin].
  apply cell_eqb_eq in Hnull.
  destruct (minimax_search b p HX HO (not_full_of_null b i Hnull))
    as (i0 & score & E & _ & _ & Hbest).
  destruct (minimax_range _ b p eq_refl) as (r & Er & Hrange).
  exists r. split; trivial.
  rewrite E in Er. injection Er as <-. simpl in *.
  destruct (Hbest i Hnull) as (sj & Hsj & Hnot & _).
  unfold childScore, minimax in Hsj. rewrite minimaxFuel_S in Hsj.
  destruct p; simpl in *.
  - rewrite Hwin in Hsj. injection Hsj as <-. simpl in Hnot. lia.
  - assert (checkWinner PlayerX (set i (Mark PlayerO) b) = false) as HX'.
    { destruct (checkWinner PlayerX (set _ _ _)) eqn:E'; trivial.
      apply checkWinner_set_other in E'; congruence. }
    rewrite HX', Hwin in Hsj. injection Hsj as <-. simpl in Hnot. lia.
Qed.

Lemma minimax_immediate_win_witness :
  let b := [Mark PlayerO; Mark PlayerO; Null;
            Mark PlayerX; Mark PlayerX; Null;
            Null; Null; Null] in
  exists r, minimax b PlayerO = Some (r, b) /\ mv_score r = 10%Z.
Proof.
  apply (minimax_immediate_win _ PlayerO 2); reflexivity.
Defined.

(* ------------------------------------------------------------------ *)
(** ** Further properties: clicks and the computer's move *)

(** [makeMove] leaves these fields alone. *)
Lemma makeMove_frame index p s :
  difficulty (makeMove index p s) = difficulty s
  /\ reviewMode (makeMove index p s) = reviewMode s
  /\ reviewIndex (makeMove index p s) = reviewIndex s
  /\ aiRandomMovesUsed (makeMove index p s) = aiRandomMovesUsed s
  /\ pendingMoves (makeMove index p s) = pendingMoves s.
Proof.
  unfold makeMove. simpl.
  destruct (checkWinner p _); [|destruct (boardFull _)];
    status_frame; simpl; auto.
Qed.

Lemma makeMove_currentPlayer index p s :
  currentPlayer (makeMove index p s)
  = if checkWinner p (write index (Mark p) (board s))
       || boardFull (write index (Mark p) (board s))
    then currentPlayer s
    else other (currentPlayer s).
Proof.
  unfold makeMove. simpl.
  destruct (checkWinner p _); [|destruct (boardFull _)];
    status_frame; simpl; trivial.
Qed.

(** X10.  A click the handler accepts (live game outside review, turn of
    ['X'], empty cell): the cell takes an ['X'] and the other cells stay;
    the game goes on unless ['X'] completed a line or filled the board;
    if it goes on the turn is with ['O'] and one computer move is
    scheduled, otherwise none is. *)
Theorem handleCellClick_accepted (index : Z) (s : TicTacToe) :
  reviewMode s = false ->
  gameActive s = true ->
  currentPlayer s = PlayerX ->
  getZ (board s) index = Null ->
  let s' := handleCellClick index s in
  board s' = set (Z.to_nat index) (Mark PlayerX) (board s)
  /\ gameActive s'
     = negb (checkWinner PlayerX (board s') || boardFull (board s'))
  /\ pendingMoves s' = pendingMoves s + (if gameActive s' then 1 else 0)
  /\ (gameActive s' = true -> currentPlayer s' = PlayerO).
Proof.
  intros Hr Ha Hp Hcell s'. subst s'. unfold handleCellClick.
  rewrite Hr, Ha, Hp, Hcell. simpl.
  pose proof (makeMove_board (Some (Z.to_nat index)) PlayerX s) as Hb.
  pose proof (makeMove_gameActive (Some (Z.to_nat index)) PlayerX s) as Hg.
  pose proof (makeMove_currentPlayer (Some (Z.to_nat index)) PlayerX s) as Hc.
  destruct (makeMove_frame (Some (Z.to_nat index)) PlayerX s)
    as (_ & _ & _ & _ & Hpend).
  simpl in Hb, Hg, Hc. rewrite Ha, Hp in *. simpl in Hg, Hc.
  set (b' := set (Z.to_nat index) (Mark PlayerX) (board s)) in *.
  set (moved := makeMove (Some (Z.to_nat index)) PlayerX s) in *.
  rewrite Hg, Hc.
  destruct (checkWinner PlayerX b') eqn:EW, (boardFull b') eqn:EF; simpl;
    rewrite ?Hb, ?Hg, ?Hpend, ?EW, ?EF; simpl;
    repeat split; trivial; try discriminate; lia.
Qed.

Lemma handleCellClick_accepted_witness :
  let s' := handleCellClick 4 newGame in
  board s' = set 4 (Mark PlayerX) (board newGame)
  /\ gameActive s'
     = negb (checkWinner PlayerX (board s') || boardFull (board s'))
  /\ pendingMoves s' = pendingMoves newGame + (if gameActive s' then 1 else 0)
  /\ (gameActive s' = true -> currentPlayer s' = PlayerO).
Proof.
  apply (handleCellClick_accepted 4 newGame); reflexivity.
Defined.

(** X11.  A click while the turn is with ['O'], so while the computer's
    deferred move is due, changes nothing. *)
Theorem handleCellClick_out_of_turn (index : Z) (s : TicTacToe) :
  currentPlayer s = PlayerO -> handleCellClick index s = s.
Proof.
  intros H. unfold handleCellClick. rewrite H. simpl.
  now rewrite !orb_true_r.
Qed.

Lemma handleCellClick_out_of_turn_witness :
  handleCellClick 8 (handleCellClick 4 newGame) = handleCellClick 4 newGame.
Proof.
  apply handleCellClick_out_of_turn. reflexivity.
Defined.

(** The three ways [computerMove] comes to its move. *)
Lemma chooseMove_cases rnd s :
  (exists i,
      lowest (completes PlayerO (board s)) i
      /\ chooseMove rnd s = (Some i, s))
  \/ ((forall j, completes PlayerO (board s) j = false)
      /\ exists i,
          lowest (completes PlayerX (board s)) i
          /\ chooseMove rnd s = (Some i, s))
  \/ ((forall j, completes PlayerO (board s) j = false)
      /\ (forall j, completes PlayerX (board s) j = false)
      /\ chooseMove rnd s = difficultyPolicy rnd (emptyIndices (board s)) s).
Proof.
  pose proof (find_completing PlayerO (board s)) as HO.
  destruct (find _ _) as [i|].
  { left. exists i. split; trivial.
    unfold chooseMove. rewrite (findWinningMove_lowest _ _ _ HO).
    destruct (Z.eqb_spec (Z.of_nat i) (-1)) as [|_]; [lia|]. simpl.
    now rewrite Nat2Z.id, with_board_same. }
  right.
  pose proof (find_completing PlayerX (board s)) as HX.
  destruct (find _ _) as [i|].
  - left. split; trivial. exists i. split; trivial.
    unfold chooseMove. rewrite (findWinningMove_none _ _ HO). simpl.
    rewrite (findWinningMove_lowest _ _ _ HX).
    destruct (Z.eqb_spec (Z.of_nat i) (-1)) as [|_]; [lia|]. simpl.
    rewrite (findWinningMove_lowest _ _ _ HX).
    now rewrite Nat2Z.id, !with_board_same.
  - right. repeat split; trivial.
    unfold chooseMove. rewrite (findWinningMove_none _ _ HO). simpl.
    rewrite (findWinningMove_none _ _ HX). simpl.
    now rewrite !with_board_same.
Qed.

(** With budget left the policy draws a random empty cell and counts it. *)
Lemma difficultyPolicy_random rnd empties s :
  aiRandomMovesUsed s < budget (difficulty s) ->
  difficultyPolicy rnd empties s
  = (nth_error empties rnd,
     with_aiRandomMovesUsed (aiRandomMovesUsed s + 1) s).
Proof.
  unfold budget, difficultyPolicy.
  destruct (String.eqb (difficulty s) "hard"); [lia|].
  destruct (String.eqb (difficulty s) "medium"); intros H.
  - destruct (Nat.ltb_spec (aiRandomMovesUsed s) 1); trivial. lia.
  - destruct (Nat.ltb_spec (aiRandomMovesUsed s) 2); trivial. lia.
Qed.

(** With the budget spent the policy is the search. *)
Lemma difficultyPolicy_search rnd empties s :
  budget (difficulty s) <= aiRandomMovesUsed s ->
  exists best,
    minimax (board s) PlayerO = Some (best, board s)
    /\ difficultyPolicy rnd empties s = (mv_index best, s).
Proof.
  intros H. destruct (minimax_total (board s) PlayerO) as [best E].
  exists best. split; trivial.
  unfold budget in H. unfold difficultyPolicy. rewrite E, with_board_same.
  destruct (String.eqb (difficulty s) "hard"); trivial.
  destruct (String.eqb (difficulty s) "medium").
  - destruct (Nat.ltb_spec (aiRandomMovesUsed s) 1); trivial. lia.
  - destruct (Nat.ltb_spec (aiRandomMovesUsed s) 2); trivial. lia.
Qed.

(** X12.  In an active game on a board that is not terminal
    [computerMove] writes exactly one ['O'], into a cell that was empty,
    and logs it as one move of ['O'] ([rnd] being a draw within the empty
    cells, as [Math.random] gives it). *)
Theorem computerMove_places_O (rnd : nat) (s : TicTacToe) :
  gameActive s = true ->
  terminalBoard (board s) = false ->
  rnd < List.length (emptyIndices (board s)) ->
  exists i m,
    get (board s) i = Null
    /\ board (computerMove rnd s) = set i (Mark PlayerO) (board s)
    /\ allMoves (computerMove rnd s) = allMoves s ++ [m]
    /\ m_player m = PlayerO
    /\ m_index m = Some i
    /\ m_board m = board (computerMove rnd s).
Proof.
  intros Ha Hterm Hrnd. unfold terminalBoard in Hterm.
  apply orb_false_elim in Hterm. destruct Hterm as [Hterm Hfull].
  apply orb_false_elim in Hterm. destruct Hterm as [HX HO].
  unfold computerMove. rewrite Ha. simpl.
  destruct (chooseMove rnd s) as [move s'] eqn:E.
  destruct (chooseMove_move _ _ _ _ E) as [Hmove [n ->]].
  assert (exists i, move = Some i) as [i ->].
  { destruct (chooseMove_cases rnd s)
      as [(i & _ & E') | [(_ & i & _ & E') | (_ & _ & E')]];
      rewrite E' in E; try (injection E as <- _; eauto).
    destruct (Nat.lt_ge_cases (aiRandomMovesUsed s) (budget (difficulty s)))
      as [Hlt | Hge].
    - rewrite difficultyPolicy_random in E by trivial.
      injection E as <- _. apply nth_error_Some in Hrnd.
      destruct (nth_error _ rnd); [eauto | congruence].
    - destruct (difficultyPolicy_search rnd (emptyIndices (board s)) s Hge)
        as (best & Hbest & E'').
      rewrite E'' in E. injection E as <- _.
      destruct (minimax_search _ PlayerO HX HO Hfull) as (i & sc & Hs & _).
      rewrite Hs in Hbest. injection Hbest as <-. simpl. eauto. }
  specialize (Hmove i eq_refl).
  exists i. eexists. rewrite makeMove_board.
  destruct (makeMove_log (Some i) PlayerO (with_aiRandomMovesUsed n s))
    as (Hlog & _ & _).
  rewrite Hlog. simpl. repeat split; trivial.
Qed.

Lemma computerMove_places_O_witness :
  let s := handleCellClick 4 newGame in
  exists i m,
    get (board s) i = Null
    /\ board (computerMove 7 s) = set i (Mark PlayerO) (board s)
    /\ allMoves (computerMove 7 s) = allMoves s ++ [m]
    /\ m_player m = PlayerO
    /\ m_index m = Some i
    /\ m_board m = board (computerMove 7 s).
Proof.
  apply (computerMove_places_O 7 (handleCellClick 4 newGame));
    [reflexivity | reflexivity | vm_compute; lia].
Defined.

(** X13.  The random move: in an active game where neither mark can
    complete a line at once and the budget of the difficulty is not
    used up, [computerMove] plays the empty cell the draw points at,
    [emptyIndices[rnd]], any of the empty cells, and counts one more
    random move. *)
Theorem computerMove_random (rnd i : nat) (s : TicTacToe) :
  gameActive s = true ->
  (forall j, completes PlayerO (board s) j = false) ->
  (forall j, completes PlayerX (board s) j = false) ->
  aiRandomMovesUsed s < budget (difficulty s) ->
  nth_error (emptyIndices (board s)) rnd = Some i ->
  computerMove rnd s
  = makeMove (Some i) PlayerO
      (with_aiRandomMovesUsed (aiRandomMovesUsed s + 1) s).
Proof.
  intros Ha HO HX Hbudget Hi. unfold computerMove. rewrite Ha. simpl.
  destruct (chooseMove_cases rnd s)
    as [(k & [Hk _] & _) | [(_ & k & [Hk _] & _) | (_ & _ & ->)]];
    try congruence.
  now rewrite difficultyPolicy_random, Hi.
Qed.

Lemma computerMove_random_witness :
  let s := handleCellClick 0 newGame in
  computerMove 3 s
  = makeMove (Some 4) PlayerO
      (with_aiRandomMovesUsed (aiRandomMovesUsed s + 1) s).
Proof.
  apply (computerMove_random 3 4 (handleCellClick 0 newGame));
    try reflexivity; try (vm_compute; lia);
    intros j; do 9 (destruct j as [|j]; [reflexivity|]);
    unfold completes, get; simpl; now destruct j.
Defined.

(** X14.  With the budget spent (always on hard, after one random move
    on medium, after two otherwise) [computerMove] does not depend on the
    random draw and does not change the counter. *)
Theorem computerMove_budget_spent (rnd rnd' : nat) (s : TicTacToe) :
  budget (difficulty s) <= aiRandomMovesUsed s ->
  computerMove rnd s = computerMove rnd' s
  /\ aiRandomMovesUsed (computerMove rnd s) = aiRandomMovesUsed s.
Proof.
  intros H. unfold computerMove.
  destruct (negb (gameActive s)); [auto|].
  assert (exists move, chooseMove rnd s = (move, s)
                       /\ chooseMove rnd' s = (move, s)) as (move & -> & ->).
  { destruct (chooseMove_cases rnd s)
      as [(i & Hi & E) | [(HO & i & Hi & E) | (HO & HX & E)]];
      destruct (chooseMove_cases rnd' s)
        as [(i' & Hi' & E') | [(HO' & i' & Hi' & E') | (HO' & HX' & E')]];
      rewrite E, E';
      try match goal with
          | L : lowest (completes ?p ?b) _,
            N : forall j, completes ?p ?b j = false |- _ =>
              destruct L as [L _]; rewrite N in L; discriminate L
          end;
      try (rewrite (lowest_unique _ _ _ Hi Hi'); eauto).
    destruct (difficultyPolicy_search rnd (emptyIndices (board s)) s H)
      as (best & Hbest & ->).
    destruct (difficultyPolicy_search rnd' (emptyIndices (board s)) s H)
      as (best' & Hbest' & ->).
    rewrite Hbest in Hbest'. injection Hbest' as <-. eauto. }
  split; trivial.
  now destruct (makeMove_frame move PlayerO s) as (_ & _ & _ & -> & _).
Qed.

Lemma computerMove_budget_spent_witness :
  let s := handleCellClick 4 hardGame in
  computerMove 0 s = computerMove 5 s
  /\ aiRandomMovesUsed (computerMove 0 s) = aiRandomMovesUsed s.
Proof.
  apply (computerMove_budget_spent 0 5 (handleCellClick 4 hardGame)).
  vm_compute. lia.
Defined.

(* ------------------------------------------------------------------ *)
(** ** Further properties: what review mode leaves alone *)

Lemma displayReviewMove_frame s :
  exists b text, displayReviewMove s = with_statusText text (with_board b s).
Proof.
  unfold displayReviewMove.
  destruct (_ && _); [destruct (nth_error _ _) as [move|]|];
    status_frame; eauto.
  exists (board s), (statusText s). now destruct s.
Qed.

(** In review mode the two navigation buttons move the index and show a
    board; the rest of the state stays. *)
Lemma review_navigation_frame s :
  reviewMode s = true ->
  (exists ri b text,
      moveBackward s = with_statusText text (with_board b (with_reviewIndex ri s)))
  /\ (exists ri b text,
         moveForward s = with_statusText text (with_board b (with_reviewIndex ri s))).
Proof.
  intros Hr. unfold moveBackward, moveForward. rewrite Hr.
  assert (s = with_statusText (statusText s)
                (with_board (board s) (with_reviewIndex (reviewIndex s) s)))
    as Hsame by (now destruct s).
  split.
  - destruct (0 <? reviewIndex s)%Z; [|eauto].
    destruct (displayReviewMove_frame (with_reviewIndex (reviewIndex s - 1) s))
      as (b & text & ->). eauto.
  - destruct (_ <? _)%Z; [|eauto].
    destruct (displayReviewMove_frame (with_reviewIndex (reviewIndex s + 1) s))
      as (b & text & ->). eauto.
Qed.

(** X15.  Review is read-only: in review mode the backward and forward
    buttons change neither the full log, the undo stack and the redo
    queue, nor the turn, the liveness of the game, the counter, the
    difficulty or the pending timer, and the session stays in review. *)
Theorem review_read_only (s : TicTacToe) :
  reviewMode s = true ->
  forall s', s' = moveBackward s \/ s' = moveForward s ->
  allMoves s' = allMoves s
  /\ moveHistory s' = moveHistory s
  /\ redoHistory s' = redoHistory s
  /\ currentPlayer s' = currentPlayer s
  /\ gameActive s' = gameActive s
  /\ aiRandomMovesUsed s' = aiRandomMovesUsed s
  /\ difficulty s' = difficulty s
  /\ pendingMoves s' = pendingMoves s
  /\ reviewMode s' = true.
Proof.
  intros Hr s' Hs'.
  destruct (review_navigation_frame s Hr)
    as [(ri & b & text & Eb) (ri' & b' & text' & Ef)].
  destruct Hs' as [-> | ->]; [rewrite Eb | rewrite Ef]; simpl;
    repeat split; trivial.
Qed.

Lemma review_read_only_witness :
  let s := run [ReviewClick; ForwardClick; ForwardClick] drawnGame in
  let s' := moveBackward s in
  allMoves s' = allMoves s
  /\ moveHistory s' = moveHistory s
  /\ redoHistory s' = redoHistory s
  /\ currentPlayer s' = currentPlayer s
  /\ gameActive s' = gameActive s
  /\ aiRandomMovesUsed s' = aiRandomMovesUsed s
  /\ difficulty s' = difficulty s
  /\ pendingMoves s' = pendingMoves s
  /\ reviewMode s' = true.
Proof.
  apply (review_read_only
           (run [ReviewClick; ForwardClick; ForwardClick] drawnGame));
    [reflexivity | now left].
Defined.

(** X16.  Review mode is left only by a new game: once the session is in
    review, every event other than a reset or a change of difficulty
    keeps it there. *)
Theorem review_until_reset (e : event) (s : TicTacToe) :
  reviewMode s = true -> keepsGame e = true -> reviewMode (handle e s) = true.
Proof.
  intros Hr He. destruct e as [index|d| | | | |rnd]; try discriminate He; simpl.
  - unfold handleCellClick. now rewrite Hr.
  - destruct (review_navigation_frame s Hr) as [(ri & b & text & ->) _].
    exact Hr.
  - destruct (review_navigation_frame s Hr) as [_ (ri & b & text & ->)].
    exact Hr.
  - unfold startReview. destruct (_ =? 0); trivial.
  - unfold runPendingMove. destruct (pendingMoves s); trivial.
    unfold computerMove. simpl. destruct (negb (gameActive s)); trivial.
    destruct (chooseMove rnd (with_pendingMoves n s)) as [move s'] eqn:E.
    destruct (chooseMove_move _ _ _ _ E) as [_ [k ->]].
    now destruct (makeMove_frame move PlayerO
                    (with_aiRandomMovesUsed k (with_pendingMoves n s)))
      as (_ & -> & _).
Qed.

Lemma review_until_reset_witness :
  reviewMode (handle (CellClick 2)
                (run [ReviewClick; ForwardClick] drawnGame)) = true.
Proof.
  apply review_until_reset; reflexivity.
Defined.

(* ------------------------------------------------------------------ *)
(** ** Further properties: invariants of the session *)

Lemma peek_last {A : Type} (st : Stack.t A) rest m :
  Stack.items st = rest ++ [m] -> Stack.peek st = Some m.
Proof.
  intros H. unfold Stack.peek, Stack.isEmpty. rewrite H.
  destruct (rest ++ [m]) eqn:E; [destruct rest; discriminate|].
  rewrite <- E, length_app, nth_error_app2; simpl; [|lia].
  now replace (_ - _) with 0 by lia.
Qed.

Lemma peek_nil {A : Type} (st : Stack.t A) :
  Stack.items st = [] -> Stack.peek st = None.
Proof.
  intros H. unfold Stack.peek, Stack.isEmpty. now rewrite H.
Qed.

(** The stack by its items: empty, or some records and a top. *)
Lemma stack_cases {A : Type} (l : list A) :
  l = [] \/ exists rest m, l = rest ++ [m].
Proof.
  destruct l as [|x l] using rev_ind; [now left | right; eauto].
Qed.

Lemma makeMove_agreesWithTop index p s : agreesWithTop (makeMove index p s).
Proof.
  unfold agreesWithTop, topCounter, topBoard.
  destruct (makeMove_log index p s) as (_ & Hst & _).
  rewrite (peek_last _ _ _ Hst). simpl.
  destruct (makeMove_frame index p s) as (_ & _ & _ & -> & _).
  now rewrite makeMove_board.
Qed.

Lemma computerMove_agreesWithTop rnd s :
  agreesWithTop s -> agreesWithTop (computerMove rnd s).
Proof.
  intros H. unfold computerMove.
  destruct (negb (gameActive s)); trivial.
  destruct (chooseMove rnd s) as [move s'].
  apply makeMove_agreesWithTop.
Qed.

Lemma moveBackward_agreesWithTop s :
  agreesWithTop s -> agreesWithTop (moveBackward s).
Proof.
  intros H. destruct (reviewMode s) eqn:Hr.
  { destruct (review_navigation_frame s Hr) as [(ri & b & text & ->) _].
    destruct H as [Hc _]. split; [exact Hc|].
    simpl. congruence. }
  unfold moveBackward. rewrite Hr.
  destruct (pop_cases (moveHistory s)) as [[_ ->] | (rest & e & Hit & ->)];
    [exact H|].
  status_frame. unfold agreesWithTop, topCounter, topBoard.
  cbn [moveHistory with_allMoves with_redoHistory with_moveHistory
       with_statusText with_gameActive].
  destruct (stack_cases rest) as [-> | (rest' & prev & ->)].
  - simpl. auto.
  - assert (Stack.isEmpty (Stack.mk (rest' ++ [prev])) = false) as ->
        by (unfold Stack.isEmpty; simpl; now destruct rest').
    rewrite (peek_last (Stack.mk (rest' ++ [prev])) rest' prev eq_refl).
    simpl. rewrite (peek_last (Stack.mk (rest' ++ [prev])) rest' prev eq_refl).
    auto.
Qed.

Lemma moveForward_agreesWithTop s :
  agreesWithTop s -> agreesWithTop (moveForward s).
Proof.
  intros H. destruct (reviewMode s) eqn:Hr.
  { destruct (review_navigation_frame s Hr) as [_ (ri & b & text & ->)].
    destruct H as [Hc _]. split; [exact Hc|].
    simpl. congruence. }
  unfold moveForward. rewrite Hr.
  destruct (Queue.dequeue (redoHistory s)) as [[nextMove|] rest]; [|exact H].
  assert (forall t, Stack.peek (Stack.push nextMove t) = Some nextMove)
    as Hpeek by (intros t; now apply (peek_last _ (Stack.items t))).
  match goal with
  | |- context [if ?c then _ else _] => destruct c
  end; status_frame; unfold agreesWithTop, topCounter, topBoard; simpl;
    rewrite Hpeek; auto.
Qed.

Lemma handle_agreesWithTop e s : agreesWithTop s -> agreesWithTop (handle e s).
Proof.
  intros H. destruct e as [index|d| | | | |rnd]; simpl.
  - unfold handleCellClick. destruct (_ || _); trivial.
    pose proof (makeMove_agreesWithTop (Some (Z.to_nat index)) PlayerX s) as H'.
    destruct (_ && _); trivial.
  - unfold setDifficulty, resetGame. status_frame. split; reflexivity.
  - unfold resetGame. status_frame. split; reflexivity.
  - now apply moveBackward_agreesWithTop.
  - now apply moveForward_agreesWithTop.
  - unfold startReview. destruct (_ =? 0); [exact H|].
    status_frame. destruct H as [Hc _]. split; [exact Hc|]. discriminate.
  - unfold runPendingMove. destruct (pendingMoves s); trivial.
    apply computerMove_agreesWithTop. exact H.
Qed.

Lemma reachable_agrees s : reachable s -> agreesWithTop s.
Proof.
  induction 1 as [|e s _ IH].
  - split; reflexivity.
  - now apply handle_agreesWithTop.
Qed.

(** X17.  In every state the page can reach the random-move counter is
    the one recorded on top of the undo stack (0 under an empty stack),
    and outside review the board is the snapshot recorded there (the
    empty board under an empty stack). *)
Theorem reachable_agreesWithTop (s : TicTacToe) :
  reachable s ->
  aiRandomMovesUsed s = topCounter s
  /\ (reviewMode s = false -> board s = topBoard s).
Proof.
  intros H. now apply reachable_agrees.
Qed.

Lemma reachable_agreesWithTop_witness :
  let s := handle BackwardClick
             (handle (TimerFires 2) (handle (CellClick 4) newGame)) in
  aiRandomMovesUsed s = topCounter s
  /\ (reviewMode s = false -> board s = topBoard s).
Proof.
  apply reachable_agreesWithTop.
  do 3 apply reachable_step. apply reachable_new.
Defined.

Lemma chooseMove_counter rnd s move s' :
  chooseMove rnd s = (move, s') ->
  aiRandomMovesUsed s <= budget (difficulty s) ->
  exists n, s' = with_aiRandomMovesUsed n s /\ n <= budget (difficulty s).
Proof.
  intros E H.
  assert (s = with_aiRandomMovesUsed (aiRandomMovesUsed s) s) as Hsame
      by (now destruct s).
  destruct (chooseMove_cases rnd s)
    as [(i & _ & E') | [(_ & i & _ & E') | (_ & _ & E')]];
    rewrite E' in E; try (injection E as _ <-; eauto).
  destruct (Nat.lt_ge_cases (aiRandomMovesUsed s) (budget (difficulty s)))
    as [Hlt | Hge].
  - rewrite difficultyPolicy_random in E by trivial.
    injection E as _ <-. eexists. split; [reflexivity | lia].
  - destruct (difficultyPolicy_search rnd (emptyIndices (board s)) s Hge)
      as (best & _ & E'').
    rewrite E'' in E. injection E as _ <-. eauto.
Qed.

Lemma makeMove_withinBudget index p s :
  withinBudget s -> withinBudget (makeMove index p s).
Proof.
  intros (Hc & Hst & _). unfold withinBudget.
  destruct (makeMove_log index p s) as (_ & -> & ->).
  destruct (makeMove_frame index p s) as (-> & _ & _ & -> & _).
  repeat split; trivial.
  apply Forall_app. split; trivial. repeat constructor. exact Hc.
Qed.

Lemma computerMove_withinBudget rnd s :
  withinBudget s -> withinBudget (computerMove rnd s).
Proof.
  intros H. unfold computerMove.
  destruct (negb (gameActive s)); trivial.
  destruct (chooseMove rnd s) as [move s'] eqn:E.
  destruct H as (Hc & Hst & Hq).
  destruct (chooseMove_counter _ _ _ _ E Hc) as (n & -> & Hn).
  apply makeMove_withinBudget. repeat split; trivial.
Qed.

Lemma moveBackward_withinBudget s :
  withinBudget s -> withinBudget (moveBackward s).
Proof.
  intros H. destruct (reviewMode s) eqn:Hr.
  { destruct (review_navigation_frame s Hr) as [(ri & b & text & ->) _].
    exact H. }
  unfold moveBackward. rewrite Hr.
  destruct (pop_cases (moveHistory s)) as [[_ ->] | (rest & e & Hit & ->)];
    [exact H|].
  destruct H as (Hc & Hst & Hq).
  rewrite Hit in Hst. apply Forall_app in Hst. destruct Hst as [Hrest He].
  assert (Forall (fun m => m_aiRandomMovesUsed m <= budget (difficulty s))
                 (Queue.items (redoHistory s) ++ [e])) as Hq'
      by (apply Forall_app; auto).
  status_frame. unfold withinBudget.
  cbn [moveHistory with_allMoves with_redoHistory with_moveHistory
       with_statusText with_gameActive].
  destruct (stack_cases rest) as [-> | (rest' & prev & ->)].
  - simpl. repeat split; trivial. lia.
  - assert (Stack.isEmpty (Stack.mk (rest' ++ [prev])) = false) as ->
        by (unfold Stack.isEmpty; simpl; now destruct rest').
    rewrite (peek_last (Stack.mk (rest' ++ [prev])) rest' prev eq_refl).
    simpl. repeat split; trivial.
    apply Forall_app in Hrest. destruct Hrest as [_ Hprev].
    now apply Forall_inv in Hprev.
Qed.

Lemma moveForward_withinBudget s :
  withinBudget s -> withinBudget (moveForward s).
Proof.
  intros H. destruct (reviewMode s) eqn:Hr.
  { destruct (review_navigation_frame s Hr) as [_ (ri & b & text & ->)].
    exact H. }
  unfold moveForward. rewrite Hr.
  destruct H as (Hc & Hst & Hq).
  unfold Queue.dequeue, Queue.isEmpty.
  destruct (Queue.items (redoHistory s)) as [|e rest] eqn:Eq; simpl.
  { repeat split; trivial. simpl. now rewrite Eq. }
  apply Forall_cons_iff in Hq. destruct Hq as [He Hrest].
  match goal with
  | |- context [if ?c then _ else _] => destruct c
  end; status_frame; unfold withinBudget; simpl;
    (repeat split; trivial; apply Forall_app; auto).
Qed.

Lemma handle_withinBudget e s : withinBudget s -> withinBudget (handle e s).
Proof.
  intros H. destruct e as [index|d| | | | |rnd]; simpl.
  - unfold handleCellClick. destruct (_ || _); trivial.
    pose proof (makeMove_withinBudget (Some (Z.to_nat index)) PlayerX s H) as H'.
    destruct (_ && _); trivial.
  - unfold setDifficulty, resetGame, withinBudget. status_frame. simpl.
    repeat split; auto. lia.
  - unfold resetGame, withinBudget. status_frame. simpl.
    repeat split; auto. lia.
  - now apply moveBackward_withinBudget.
  - now apply moveForward_withinBudget.
  - unfold startReview. destruct (_ =? 0); [exact H|].
    status_frame. exact H.
  - unfold runPendingMove. destruct (pendingMoves s); trivial.
    apply computerMove_withinBudget. exact H.
Qed.

(** X18.  The random-move budget is never exceeded: in every state the
    page can reach, the counter and every counter recorded in the undo
    stack and the redo queue are 0 on hard difficulty, at most 1 on
    medium and at most 2 otherwise. *)
Theorem reachable_withinBudget (s : TicTacToe) :
  reachable s ->
  aiRandomMovesUsed s <= budget (difficulty s)
  /\ Forall (fun m => m_aiRandomMovesUsed m <= budget (difficulty s))
            (Stack.items (moveHistory s))
  /\ Forall (fun m => m_aiRandomMovesUsed m <= budget (difficulty s))
            (Queue.items (redoHistory s)).
Proof.
  induction 1 as [|e s _ IH].
  - split; [cbv; lia | split; constructor].
  - now apply handle_withinBudget.
Qed.

Lemma reachable_withinBudget_witness :
  let s := handle (TimerFires 1)
             (handle (CellClick 0)
                (handle (TimerFires 2) (handle (CellClick 4) newGame))) in
  aiRandomMovesUsed s <= budget (difficulty s)
  /\ Forall (fun m => m_aiRandomMovesUsed m <= budget (difficulty s))
            (Stack.items (moveHistory s))
  /\ Forall (fun m => m_aiRandomMovesUsed m <= budget (difficulty s))
            (Queue.items (redoHistory s)).
Proof.
  apply reachable_withinBudget.
  do 4 apply reachable_step. apply reachable_new.
Defined.

Lemma makeMove_reviewIndexInLog index p s :
  reviewIndexInLog s -> reviewIndexInLog (makeMove index p s).
Proof.
  intros (H1 & H2 & H3). unfold reviewIndexInLog.
  destruct (makeMove_log index p s) as (-> & _ & _).
  destruct (makeMove_frame index p s) as (_ & -> & -> & _ & _).
  rewrite length_app. simpl. repeat split; trivial. lia.
Qed.

Lemma handle_reviewIndexInLog e s :
  reviewIndexInLog s -> reviewIndexInLog (handle e s).
Proof.
  intros H. destruct e as [index|d| | | | |rnd]; simpl.
  - unfold handleCellClick. destruct (_ || _); trivial.
    pose proof (makeMove_reviewIndexInLog (Some (Z.to_nat index)) PlayerX s H)
      as H'.
    destruct (_ && _); trivial.
  - unfold setDifficulty, resetGame, reviewIndexInLog. status_frame. simpl.
    repeat split; auto. lia.
  - unfold resetGame, reviewIndexInLog. status_frame. simpl.
    repeat split; auto. lia.
  - destruct H as (H1 & H2 & H3). unfold moveBackward.
    destruct (reviewMode s) eqn:Hr.
    + destruct (Z.ltb_spec 0 (reviewIndex s)); [|repeat split; trivial; try lia; try (intros; first [assumption | congruence])].
      destruct (displayReviewMove_frame
                  (with_reviewIndex (reviewIndex s - 1) s)) as (b & text & ->).
      unfold reviewIndexInLog. simpl. repeat split; trivial; try lia; try (intros; first [assumption | congruence]).
    + specialize (H1 eq_refl).
      destruct (pop_cases (moveHistory s)) as [[_ ->] | (rest & m & _ & ->)];
        [repeat split; trivial; try lia; try (intros; first [assumption | congruence])|].
      status_frame. unfold reviewIndexInLog.
      destruct (Stack.isEmpty _); [|destruct (Stack.peek _)]; simpl;
        rewrite H1; repeat split; trivial; try lia; try (intros; first [assumption | congruence]).
  - destruct H as (H1 & H2 & H3). unfold moveForward.
    destruct (reviewMode s) eqn:Hr.
    + destruct (Z.ltb_spec (reviewIndex s)
                           (Z.of_nat (List.length (allMoves s)) - 1));
        [|repeat split; trivial; try lia; try (intros; first [assumption | congruence])].
      destruct (displayReviewMove_frame
                  (with_reviewIndex (reviewIndex s + 1) s)) as (b & text & ->).
      unfold reviewIndexInLog. simpl. repeat split; trivial; try lia; try (intros; first [assumption | congruence]).
    + specialize (H1 eq_refl).
      destruct (Queue.dequeue (redoHistory s)) as [[nextMove|] rest];
        [|repeat split; trivial; try lia; try (intros; first [assumption | congruence])].
      match goal with
      | |- context [if ?c then _ else _] => destruct c
      end; status_frame; unfold reviewIndexInLog; simpl;
        rewrite H1; repeat split; trivial; try lia; try (intros; first [assumption | congruence]).
  - unfold startReview. destruct (_ =? 0); [exact H|].
    status_frame. unfold reviewIndexInLog. simpl.
    repeat split; trivial; try lia; try (intros; first [assumption | congruence]); try discriminate.
  - unfold runPendingMove. destruct (pendingMoves s); trivial.
    unfold computerMove. simpl. destruct (negb (gameActive s)); trivial.
    destruct (chooseMove rnd (with_pendingMoves n s)) as [move s'] eqn:E.
    destruct (chooseMove_move _ _ _ _ E) as [_ [k ->]].
    apply makeMove_reviewIndexInLog. exact H.
Qed.

(** X19.  In every state the page can reach the review index is -1
    outside review; in review it is never below -1 and never past the
    last record of the full log. *)
Theorem reachable_reviewIndex (s : TicTacToe) :
  reachable s ->
  (reviewMode s = false -> reviewIndex s = (-1)%Z)
  /\ (-1 <= reviewIndex s <= Z.of_nat (List.length (allMoves s)) - 1)%Z.
Proof.
  intros H.
  assert (reviewIndexInLog s) as (H1 & H2 & H3).
  { induction H as [|e s _ IH].
    - repeat split; simpl; auto. lia.
    - now apply handle_reviewIndexInLog. }
  split; trivial. lia.
Qed.

Lemma reachable_reviewIndex_witness :
  let s := handle ForwardClick (handle ReviewClick (handle (CellClick 4) newGame)) in
  (reviewMode s = false -> reviewIndex s = (-1)%Z)
  /\ (-1 <= reviewIndex s <= Z.of_nat (List.length (allMoves s)) - 1)%Z.
Proof.
  apply reachable_reviewIndex.
  do 3 apply reachable_step. apply reachable_new.
Defined.

Lemma reachable_nineCells_witness :
  nineCells (handle BackwardClick
               (handle (TimerFires 2) (handle (CellClick 4) newGame))).
Proof.
  apply reachable_nineCells.
  do 3 apply reachable_step. apply reachable_new.
Defined.

(* ------------------------------------------------------------------ *)
(** ** Further properties: undo and redo *)

(** X20.  Outside review, undo with an empty undo stack and redo with an
    empty redo queue change nothing. *)
Theorem empty_history_noop (s : TicTacToe) :
  reviewMode s = false ->
  (Stack.isEmpty (moveHistory s) = true -> moveBackward s = s)
  /\ (Queue.isEmpty (redoHistory s) = true -> moveForward s = s).
Proof.
  intros Hr. unfold moveBackward, moveForward, Stack.pop, Queue.dequeue.
  rewrite Hr. split; intros ->; now destruct s.
Qed.

Lemma empty_history_noop_witness :
  (Stack.isEmpty (moveHistory newGame) = true -> moveBackward newGame = newGame)
  /\ (Queue.isEmpty (redoHistory newGame) = true
      -> moveForward newGame = newGame).
Proof.
  apply empty_history_noop. reflexivity.
Defined.

Lemma moveBackward_pop s rest m :
  reviewMode s = false ->
  Stack.items (moveHistory s) = rest ++ [m] ->
  exists text t,
    moveBackward s = with_statusText text (with_gameActive true t)
    /\ reviewMode t = false
    /\ moveHistory t = Stack.mk rest
    /\ Queue.items (redoHistory t) = Queue.items (redoHistory s) ++ [m]
    /\ allMoves t = removelast (allMoves s)
    /\ board t = topBoard t
    /\ aiRandomMovesUsed t = topCounter t
    /\ currentPlayer t = topTurn t.
Proof.
  intros Hr Hst. unfold moveBackward. rewrite Hr.
  destruct (pop_cases (moveHistory s)) as [[E _] | (rest' & e & E & ->)].
  { rewrite Hst in E. destruct rest; discriminate. }
  rewrite Hst in E. apply app_inj_tail in E. destruct E as [<- <-].
  status_frame. eexists. eexists. split; [reflexivity|].
  unfold topBoard, topCounter, topTurn.
  cbn [moveHistory with_allMoves with_redoHistory with_moveHistory].
  destruct (stack_cases rest) as [-> | (rest' & prev & ->)].
  - simpl. repeat split; trivial.
  - assert (Stack.isEmpty (Stack.mk (rest' ++ [prev])) = false) as ->
        by (unfold Stack.isEmpty; simpl; now destruct rest').
    rewrite (peek_last (Stack.mk (rest' ++ [prev])) rest' prev eq_refl).
    simpl. rewrite (peek_last (Stack.mk (rest' ++ [prev])) rest' prev eq_refl).
    repeat split; trivial.
Qed.

(** X21.  Undo outside review: the top record leaves the undo stack and
    the full log and joins the redo queue at its tail; the board, the
    counter and the turn are set from the record that is on top now (the
    empty board, 0 and ['X'] when none is left); and the game is active
    again, whatever it was. *)
Theorem moveBackward_undo (s : TicTacToe) (rest : list moveData) (m : moveData) :
  reviewMode s = false ->
  Stack.items (moveHistory s) = rest ++ [m] ->
  let s' := moveBackward s in
  Stack.items (moveHistory s') = rest
  /\ Queue.items (redoHistory s') = Queue.items (redoHistory s) ++ [m]
  /\ allMoves s' = removelast (allMoves s)
  /\ board s' = topBoard s'
  /\ aiRandomMovesUsed s' = topCounter s'
  /\ currentPlayer s' = topTurn s'
  /\ gameActive s' = true.
Proof.
  intros Hr Hst s'. subst s'.
  destruct (moveBackward_pop s rest m Hr Hst)
    as (text & t & -> & _ & Hst' & Hq & Hlog & Hb & Hc & Hp).
  unfold topBoard, topCounter, topTurn in *. simpl.
  rewrite Hst' in *. simpl. repeat split; trivial.
Qed.

Lemma moveBackward_undo_witness :
  let s := run [CellClick 0; TimerFires 3] newGame in
  let m1 := MoveData (Some 0) PlayerX (set 0 (Mark PlayerX) emptyBoard) 0 in
  let m2 := MoveData (Some 4) PlayerO
              (set 4 (Mark PlayerO) (set 0 (Mark PlayerX) emptyBoard)) 1 in
  let s' := moveBackward s in
  Stack.items (moveHistory s') = [m1]
  /\ Queue.items (redoHistory s') = Queue.items (redoHistory s) ++ [m2]
  /\ allMoves s' = removelast (allMoves s)
  /\ board s' = topBoard s'
  /\ aiRandomMovesUsed s' = topCounter s'
  /\ currentPlayer s' = topTurn s'
  /\ gameActive s' = true.
Proof.
  intros s m1 m2.
  apply (moveBackward_undo s [m1] m2); vm_compute; reflexivity.
Defined.

(** X22.  Redo outside review: the record at the head of the redo queue
    leaves it and goes back on the undo stack and at the end of the full
    log; the board, the counter and the turn are set from it; and the
    game is ended if the board it brings is terminal, and never
    restarted. *)
Theorem moveForward_redo (s : TicTacToe) (m : moveData) (rest : list moveData) :
  reviewMode s = false ->
  Queue.items (redoHistory s) = m :: rest ->
  let s' := moveForward s in
  Queue.items (redoHistory s') = rest
  /\ Stack.items (moveHistory s') = Stack.items (moveHistory s) ++ [m]
  /\ allMoves s' = allMoves s ++ [m]
  /\ board s' = m_board m
  /\ aiRandomMovesUsed s' = m_aiRandomMovesUsed m
  /\ currentPlayer s' = other (m_player m)
  /\ gameActive s' = gameActive s && negb (terminalBoard (m_board m)).
Proof.
  intros Hr Hq s'. subst s'.
  unfold moveForward, Queue.dequeue, Queue.isEmpty, terminalBoard.
  rewrite Hr, Hq. simpl. status_frame. simpl.
  destruct (checkWinner PlayerX (m_board m) || checkWinner PlayerO (m_board m)
            || boardFull (m_board m)); simpl;
    repeat split; trivial; try (now destruct (m_player m));
    now destruct (gameActive s).
Qed.

Lemma moveForward_redo_witness :
  let s := oneUndone in
  let m := MoveData (Some 2) PlayerO
             [Mark PlayerX; Mark PlayerX; Mark PlayerO; Null; Mark PlayerO;
              Null; Null; Null; Null] 1 in
  let s' := moveForward s in
  Queue.items (redoHistory s') = []
  /\ Stack.items (moveHistory s') = Stack.items (moveHistory s) ++ [m]
  /\ allMoves s' = allMoves s ++ [m]
  /\ board s' = m_board m
  /\ aiRandomMovesUsed s' = m_aiRandomMovesUsed m
  /\ currentPlayer s' = other (m_player m)
  /\ gameActive s' = gameActive s && negb (terminalBoard (m_board m)).
Proof.
  intros s m.
  apply (moveForward_redo s m []); vm_compute; reflexivity.
Defined.

(** X23.  A move taken back at once: in a state the page can reach,
    outside review, [makeMove] followed by undo gives back the board,
    the counter, the undo stack and the full log as they were before the
    move; the record of the move waits alone in the redo queue and the
    game is active. *)
Theorem undo_after_move (s : TicTacToe) (index : option nat) (p : player) :
  reachable s ->
  reviewMode s = false ->
  let s' := moveBackward (makeMove index p s) in
  board s' = board s
  /\ aiRandomMovesUsed s' = aiRandomMovesUsed s
  /\ Stack.items (moveHistory s') = Stack.items (moveHistory s)
  /\ allMoves s' = allMoves s
  /\ Queue.items (redoHistory s')
     = [MoveData index p (write index (Mark p) (board s))
                 (aiRandomMovesUsed s)]
  /\ gameActive s' = true.
Proof.
  intros Hreach Hr s'. subst s'.
  destruct (reachable_agrees s Hreach) as [Hc Hb]. specialize (Hb Hr).
  destruct (makeMove_log index p s) as (Hlog & Hst & Hq).
  destruct (makeMove_frame index p s) as (_ & Hr' & _).
  rewrite Hr in Hr'.
  destruct (moveBackward_pop _ _ _ Hr' Hst)
    as (text & t & -> & _ & Hst' & Hq' & Hlog' & Hbt & Hct & _).
  simpl. rewrite Hbt, Hct, Hb, Hc, Hq', Hq, Hlog', Hlog, removelast_last.
  unfold topBoard, topCounter. rewrite Hst', stack_eta. simpl.
  repeat split; trivial.
  unfold topBoard, topCounter in Hb, Hc. now rewrite <- Hb, <- Hc.
Qed.

Lemma undo_after_move_witness :
  let s := handle (TimerFires 3) (handle (CellClick 0) newGame) in
  let s' := moveBackward (makeMove (Some 1) PlayerX s) in
  board s' = board s
  /\ aiRandomMovesUsed s' = aiRandomMovesUsed s
  /\ Stack.items (moveHistory s') = Stack.items (moveHistory s)
  /\ allMoves s' = allMoves s
  /\ Queue.items (redoHistory s')
     = [MoveData (Some 1) PlayerX (write (Some 1) (Mark PlayerX) (board s))
                 (aiRandomMovesUsed s)]
  /\ gameActive s' = true.
Proof.
  intros s.
  apply (undo_after_move s (Some 1) PlayerX);
    [unfold s; do 2 apply reachable_step; apply reachable_new
    | vm_compute; reflexivity].
Defined.

Lemma undo_redo_empty_queue_witness :
  let s := handle (TimerFires 3) (handle (CellClick 0) newGame) in
  let m1 := MoveData (Some 0) PlayerX (set 0 (Mark PlayerX) emptyBoard) 0 in
  let m2 := MoveData (Some 4) PlayerO
              (set 4 (Mark PlayerO) (set 0 (Mark PlayerX) emptyBoard)) 1 in
  let s' := moveForward (moveBackward s) in
  board s' = m_board m2
  /\ currentPlayer s' = other (m_player m2)
  /\ aiRandomMovesUsed s' = m_aiRandomMovesUsed m2
  /\ Stack.items (moveHistory s') = [m1] ++ [m2]
  /\ Queue.items (redoHistory s') = [].
Proof.
  intros s m1 m2.
  apply (undo_redo_empty_queue s [m1] m2); vm_compute; reflexivity.
Defined.

(* ------------------------------------------------------------------ *)
(** ** Further properties: replay, reset, the stale timer *)

Lemma moveForward_review_step t j m :
  reviewMode t = true ->
  reviewIndex t = (Z.of_nat j - 1)%Z ->
  nth_error (allMoves t) j = Some m ->
  reviewMode (moveForward t) = true
  /\ reviewIndex (moveForward t) = Z.of_nat j
  /\ board (moveForward t) = m_board m
  /\ allMoves (moveForward t) = allMoves t.
Proof.
  intros Hr Hi Hm.
  assert (j < List.length (allMoves t)) as Hj
      by (apply nth_error_Some; congruence).
  unfold moveForward. rewrite Hr, Hi.
  destruct (Z.ltb_spec (Z.of_nat j - 1)
                       (Z.of_nat (List.length (allMoves t)) - 1)) as [_|];
    [|lia].
  unfold displayReviewMove. simpl.
  replace (Z.of_nat j - 1 + 1)%Z with (Z.of_nat j) by lia.
  destruct (Z.leb_spec 0 (Z.of_nat j)) as [_|]; [|lia].
  destruct (Z.ltb_spec (Z.of_nat j) (Z.of_nat (List.length (allMoves t))))
    as [_|]; [|lia].
  simpl. rewrite Nat2Z.id, Hm. status_frame. simpl. auto.
Qed.

Lemma review_steps s k :
  k < List.length (allMoves s) ->
  let r := Nat.iter k moveForward (startReview s) in
  reviewMode r = true
  /\ reviewIndex r = (Z.of_nat k - 1)%Z
  /\ allMoves r = allMoves s.
Proof.
  induction k as [|k IH]; intros Hk; cbv zeta in *.
  - unfold startReview.
    destruct (Nat.eqb_spec (List.length (allMoves s)) 0); [lia|].
    status_frame. simpl. auto.
  - destruct IH as (Hr & Hi & Hlog); [lia|].
    destruct (nth_error (allMoves s) k) as [m|] eqn:E;
      [|apply nth_error_None in E; lia].
    rewrite <- Hlog in E.
    destruct (moveForward_review_step _ k m Hr Hi E) as (Hr' & Hi' & _ & Hlog').
    change (Nat.iter (S k) moveForward (startReview s))
      with (moveForward (Nat.iter k moveForward (startReview s))).
    split; [exact Hr' | split; [rewrite Hi'; lia | congruence]].
Qed.

(** X25.  Replay: from the start of review, [k]+1 steps forward show the
    snapshot of move [k] of the full log, with the review index at [k],
    and leave the log as it is; on the last move one more step forward
    changes nothing. *)
Theorem review_replay (s : TicTacToe) (k : nat) (m : moveData) :
  nth_error (allMoves s) k = Some m ->
  let r := Nat.iter (S k) moveForward (startReview s) in
  reviewMode r = true
  /\ reviewIndex r = Z.of_nat k
  /\ board r = m_board m
  /\ allMoves r = allMoves s
  /\ (S k = List.length (allMoves s) -> moveForward r = r).
Proof.
  intros Hm r.
  assert (k < List.length (allMoves s)) as Hk
      by (apply nth_error_Some; congruence).
  destruct (review_steps s k Hk) as (Hr & Hi & Hlog).
  subst r. simpl.
  rewrite <- Hlog in Hm.
  destruct (moveForward_review_step _ k m Hr Hi Hm) as (Hr' & Hi' & Hb' & Hlog').
  repeat split; trivial; [congruence|].
  intros Hlast. unfold moveForward at 1. rewrite Hr', Hi', Hlog', Hlog.
  destruct (Z.ltb_spec (Z.of_nat k)
                       (Z.of_nat (List.length (allMoves s)) - 1)); [lia|].
  reflexivity.
Qed.

Lemma review_replay_witness :
  let m := MoveData (Some 1) PlayerX
             [Mark PlayerX; Mark PlayerX; Null; Null; Mark PlayerO;
              Null; Null; Null; Null] 1 in
  let r := Nat.iter 3 moveForward (startReview drawnGame) in
  reviewMode r = true
  /\ reviewIndex r = Z.of_nat 2
  /\ board r = m_board m
  /\ allMoves r = allMoves drawnGame
  /\ (3 = List.length (allMoves drawnGame) -> moveForward r = r).
Proof.
  intros m.
  apply (review_replay drawnGame 2 m). vm_compute. reflexivity.
Defined.

Lemma moveBackward_review_later_witness :
  let s := run [ReviewClick; ForwardClick; ForwardClick] drawnGame in
  reviewIndex (moveBackward s) = (reviewIndex s - 1)%Z
  /\ exists move,
      nth_error (allMoves s) (Z.to_nat (reviewIndex s - 1)) = Some move
      /\ board (moveBackward s) = m_board move.
Proof.
  intros s.
  apply (moveBackward_review_later s);
    [vm_compute; reflexivity | vm_compute; split; reflexivity].
Defined.

(** X27.  A reset forgets the game and nothing else: whatever the state,
    [resetGame] gives the state of a new page with the difficulty and
    the pending timer of the old one, and [setDifficulty] the same with
    the new difficulty; a second reset changes nothing. *)
Theorem resetGame_fresh (s : TicTacToe) :
  resetGame s
  = with_pendingMoves (pendingMoves s) (with_difficulty (difficulty s) newGame)
  /\ (forall d,
         setDifficulty d s
         = with_pendingMoves (pendingMoves s) (with_difficulty d newGame))
  /\ resetGame (resetGame s) = resetGame s.
Proof.
  destruct s as [b cp ga df mh rh rm am ri n st pm].
  split; [reflexivity | split; [intros d; reflexivity | reflexivity]].
Qed.

Lemma runPendingMove_inactive_witness :
  let s := run [CellClick 0; BackwardClick; CellClick 0; TimerFires 3;
                CellClick 1; TimerFires 0; CellClick 6; TimerFires 0;
                CellClick 5; TimerFires 0; CellClick 8] newGame in
  pendingMoves s = 1
  /\ runPendingMove 0 s = with_pendingMoves (pendingMoves s - 1) s.
Proof.
  intros s. split; [vm_compute; reflexivity|].
  apply (runPendingMove_inactive 0 s). vm_compute. reflexivity.
Defined.
